(** * Transcript synchroniser (script.js): model and verified properties

    A shallow embedding of [script.js]: the transcript highlighter for an
    HTML5 audio element with a WebVTT track.  The script is a handful of
    event handlers closed over per-card mutable state; here that state is an
    explicit record and every handler is a function on it.

    Numbers.  A JavaScript number is modelled as [number]: the three special
    values and the finite ones, the latter as canonical rationals [Qc], every
    double being a rational.  Where the script adds or subtracts, the result
    is the exact one rounded to the nearest double, ties to even, by [fl]
    (binary64 with its subnormals).  Two things are left out: the sign of
    zero (the script never divides by a variable, so it cannot observe it)
    and overflow (a result of magnitude [2^1024] or more is kept finite
    instead of becoming an infinity; no time in seconds and no coordinate in
    pixels comes near).  The one quotient of the script, in [formatTime], is
    kept exact: see [num_div]. *)

From stdpp Require Import gmap list strings pretty.
From Stdlib Require Import Ascii QArith Qcanon Qround Qpower Lqa.

Open Scope Qc_scope.

(* ===================================================================== *)
(** ** JavaScript numbers                                                 *)
(* ===================================================================== *)

Inductive number : Type :=
  | NaN
  | PosInf
  | NegInf
  | Fin (q : Qc).

(** What a parameter or property read can yield: a number, or nothing. *)
Inductive value : Type :=
  | Undefined
  | Num (n : number).

(** Results of [Math.floor]: integer valued, or one of the special values. *)
Inductive integral : Type :=
  | INaN
  | IPosInf
  | INegInf
  | Int (z : Z).

(** An integer literal of the source as a number. *)
Definition lit (z : Z) : Qc := Q2Qc (inject_Z z).

(** The decimal fraction [n/d]; a decimal literal of the source, such as
    [0.01], is the double nearest to it, [fl (dec 1 100)]. *)
Definition dec (n : Z) (d : positive) : Qc := Q2Qc (n # d).

(** *** Rounding to binary64

    [round64 x] is the double nearest to the rational [x]: the multiple of
    [2^(cexp x)] nearest to it, ties going to the even multiple, where the
    exponent [cexp x] leaves 53 bits to the multiple and is at least
    [-1074]. *)

Definition pow2 (e : Z) : Q := Qpower (2 # 1) e.

(** The integer part of the binary logarithm of a positive rational. *)
Definition ilog2 (x : Q) : Z :=
  let l := (Z.log2 (Qnum x) - Z.log2 (Zpos (Qden x)))%Z in
  if Qle_bool (pow2 l) x then l else (l - 1)%Z.

Definition cexp (x : Q) : Z := Z.max (ilog2 x - 52) (-1074).

(** The integer nearest to [q], ties to even. *)
Definition rne (q : Q) : Z :=
  let f := Qfloor q in
  match Qcompare (q - inject_Z f)%Q (1 # 2) with
  | Lt => f
  | Gt => (f + 1)%Z
  | Eq => if Z.even f then f else (f + 1)%Z
  end.

Definition round_pos (x : Q) : Q :=
  (inject_Z (rne (x * pow2 (- cexp x))) * pow2 (cexp x))%Q.

Definition round64 (x : Q) : Q :=
  match Qcompare x 0%Q with
  | Eq => 0%Q
  | Gt => round_pos x
  | Lt => (- round_pos (- x))%Q
  end.

Definition fl (q : Qc) : Qc := Q2Qc (round64 q).

(** The rationals that are doubles. *)
Definition is_double (q : Qc) : Prop := fl q = q.

(** [a + b] and [a - b] on finite numbers. *)
Definition js_add (a b : Qc) : Qc := fl (a + b).

Definition js_sub (a b : Qc) : Qc := fl (a - b).

(** [v || d] on numbers: [undefined], [NaN] and [0] are falsy. *)
Definition or_else (v : value) (d : number) : number :=
  match v with
  | Undefined => d
  | Num NaN => d
  | Num (Fin q) => if Qc_eq_bool q 0 then d else Fin q
  | Num n => n
  end.

(** [a < b]; every comparison with [NaN] is false. *)
Definition num_lt (a b : number) : bool :=
  match a, b with
  | NaN, _ | _, NaN => false
  | PosInf, _ => false
  | _, NegInf => false
  | NegInf, _ => true
  | Fin _, PosInf => true
  | Fin x, Fin y => if Qclt_le_dec x y then true else false
  end.

(** [Math.max(a, b)] and [Math.min(a, b)]: [NaN] if either argument is. *)
Definition Math_max (a b : number) : number :=
  match a, b with
  | NaN, _ | _, NaN => NaN
  | _, _ => if num_lt a b then b else a
  end.

Definition Math_min (a b : number) : number :=
  match a, b with
  | NaN, _ | _, NaN => NaN
  | _, _ => if num_lt b a then b else a
  end.

(** [Math.floor]. *)
Definition Math_floor (a : number) : integral :=
  match a with
  | NaN => INaN
  | PosInf => IPosInf
  | NegInf => INegInf
  | Fin q => Int (Qfloor q)
  end.

(** Rounding towards zero, as the remainder operator does. *)
Definition Qtrunc (q : Qc) : Z :=
  if Qclt_le_dec q 0 then Qceiling q else Qfloor q.

(** [a / d] for a positive finite literal [d] (the script only divides by
    [60]).  The quotient is the exact one, where the script has the double
    nearest to it; the script only takes its floor, and for a double below
    [2^52] the floor of the rounded quotient by 60 is the floor of the exact
    one ([floor_of_rounded_quotient]). *)
Definition num_div (a : number) (d : Qc) : number :=
  match a with
  | Fin q => Fin (q / d)
  | other => other
  end.

(** [a % d] for a positive finite literal [d]: the remainder has the sign of
    the dividend, and an infinite dividend gives [NaN]. *)
Definition num_rem (a : number) (d : Qc) : number :=
  match a with
  | Fin q => Fin (q - d * Q2Qc (inject_Z (Qtrunc (q / d))))
  | _ => NaN
  end.

(** [String(n)] on the results of [Math.floor].  The integer case is the
    plain decimal form.  That is what the conversion gives for the integers
    of magnitude below [2^53], which are doubles whose shortest round-trip
    digits are their own; from [2^53] on the conversion pads those digits
    with zeros, and from [10^21] on it uses an exponent, and the model does
    not follow it there. *)
Definition String_ (n : integral) : string :=
  match n with
  | INaN => "NaN"
  | IPosInf => "Infinity"
  | INegInf => "-Infinity"
  | Int z => pretty z
  end.

(** [pad] repeated and cut to [n] characters. *)
Definition filler (n : nat) (pad : string) : string :=
  String.substring 0 n (String.concat "" (replicate n pad)).

(** [str.padStart(target, pad)]. *)
Definition padStart (str : string) (target : nat) (pad : string) : string :=
  if (target <=? String.length str)%nat then str
  else if (String.length pad =? 0)%nat then str
  else filler (target - String.length str) pad +:+ str.

(* ===================================================================== *)
(** ** formatTime                                                         *)
(* ===================================================================== *)

Definition formatTime (seconds : value) : string :=
  let s := Math_max (Fin 0) (or_else seconds (Fin 0)) in
  let m := Math_floor (num_div s (lit 60)) in
  let r := Math_floor (num_rem s (lit 60)) in
  padStart (String_ m) 2 "0" +:+ ":" +:+ padStart (String_ r) 2 "0".

(* ===================================================================== *)
(** ** The page: cues, elements, the card's state                         *)
(* ===================================================================== *)

(** A cue of the caption track.  [cue_id] stands for the identity of the
    cue object, which is what the script's [Map] is keyed by. *)
Record cue : Type := Cue {
  cue_id : nat;
  startTime : Qc;
  text : string;
}.

(** A line [div] made by [renderFromCues].  [jump_cue] is the cue that the
    element's click and keydown listeners close over. *)
Record element : Type := Element {
  classList : list string;
  attributes : list (string * string);
  time_text : string;
  body_text : string;
  jump_cue : cue;
}.

(** A child of the transcript container: markup assigned through
    [innerHTML], or a reference to an element of the heap. *)
Inductive node : Type :=
  | Html (markup : string)
  | Elem (addr : nat).

Record rect : Type := Rect {
  rect_top : Qc;
  rect_bottom : Qc;
}.

Inductive promise : Type :=
  | Fulfilled
  | Rejected (reason : string).

(** What a run leaves behind besides the state proper (bookkeeping of the
    model, not data of the script). *)
Inductive trace_item : Type :=
  | Rendered
  | DefaultPrevented
  | UnhandledRejection (reason : string)
  | TypeError.

#[global] Instance trace_item_eq_dec : EqDecision trace_item.
Proof. solve_decision. Defined.

(** What a handler reads from the host when it runs, and what the host
    does with an assignment to the container's [scrollTop]: [scroll_to v] is
    the offset the container takes when the script assigns [v] (the host
    keeps the offset inside the scrollable range). *)
Record environment : Type := Env {
  track_cues : option (list cue);
  activeCues : option (list cue);
  details : option bool;
  autoScrollCheckbox : option bool;
  parentRect : rect;
  lineRect : nat -> rect;
  scroll_to : Qc -> Qc;
  duration : number;
  play_result : promise;
}.

(** The mutable state one card's handlers share.  Elements live in [heap]
    and are referred to by their index there, so that [lines], [cueToLine]
    and the container's children alias the same objects. *)
Record state : Type := State {
  heap : list element;
  transcript : list node;
  scrollTop : Qc;
  lines : list nat;
  cueToLine : gmap nat nat;
  attempts : nat;
  timer : option nat;
  clock : nat;
  track_mode : string;
  currentTime : Qc;
  paused : bool;
  log : list trace_item;
}.

Definition set_heap (f : list element -> list element) (st : state) : state :=
  State (f (heap st)) (transcript st) (scrollTop st) (lines st) (cueToLine st)
        (attempts st) (timer st) (clock st) (track_mode st) (currentTime st)
        (paused st) (log st).

Definition set_transcript (f : list node -> list node) (st : state) : state :=
  State (heap st) (f (transcript st)) (scrollTop st) (lines st) (cueToLine st)
        (attempts st) (timer st) (clock st) (track_mode st) (currentTime st)
        (paused st) (log st).

Definition set_scrollTop (f : Qc -> Qc) (st : state) : state :=
  State (heap st) (transcript st) (f (scrollTop st)) (lines st) (cueToLine st)
        (attempts st) (timer st) (clock st) (track_mode st) (currentTime st)
        (paused st) (log st).

Definition set_lines (f : list nat -> list nat) (st : state) : state :=
  State (heap st) (transcript st) (scrollTop st) (f (lines st)) (cueToLine st)
        (attempts st) (timer st) (clock st) (track_mode st) (currentTime st)
        (paused st) (log st).

Definition set_cueToLine (f : gmap nat nat -> gmap nat nat) (st : state) : state :=
  State (heap st) (transcript st) (scrollTop st) (lines st) (f (cueToLine st))
        (attempts st) (timer st) (clock st) (track_mode st) (currentTime st)
        (paused st) (log st).

Definition set_attempts (f : nat -> nat) (st : state) : state :=
  State (heap st) (transcript st) (scrollTop st) (lines st) (cueToLine st)
        (f (attempts st)) (timer st) (clock st) (track_mode st) (currentTime st)
        (paused st) (log st).

Definition set_timer (t : option nat) (st : state) : state :=
  State (heap st) (transcript st) (scrollTop st) (lines st) (cueToLine st)
        (attempts st) t (clock st) (track_mode st) (currentTime st)
        (paused st) (log st).

Definition set_clock (f : nat -> nat) (st : state) : state :=
  State (heap st) (transcript st) (scrollTop st) (lines st) (cueToLine st)
        (attempts st) (timer st) (f (clock st)) (track_mode st) (currentTime st)
        (paused st) (log st).

Definition set_currentTime (t : Qc) (st : state) : state :=
  State (heap st) (transcript st) (scrollTop st) (lines st) (cueToLine st)
        (attempts st) (timer st) (clock st) (track_mode st) t
        (paused st) (log st).

Definition set_paused (b : bool) (st : state) : state :=
  State (heap st) (transcript st) (scrollTop st) (lines st) (cueToLine st)
        (attempts st) (timer st) (clock st) (track_mode st) (currentTime st)
        b (log st).

Definition record (i : trace_item) (st : state) : state :=
  State (heap st) (transcript st) (scrollTop st) (lines st) (cueToLine st)
        (attempts st) (timer st) (clock st) (track_mode st) (currentTime st)
        (paused st) (i :: log st).

(** [classList.remove(c)] and [classList.add(c)] on a token list. *)
Definition classList_remove (c : string) (e : element) : element :=
  Element (filter (fun x => x <> c) (classList e)) (attributes e)
          (time_text e) (body_text e) (jump_cue e).

Definition classList_add (c : string) (e : element) : element :=
  Element (if decide (c ∈ classList e) then classList e else classList e ++ [c])
          (attributes e) (time_text e) (body_text e) (jump_cue e).

(** [array.forEach((x, idx) => ...)] with the callback as a state
    transformer. *)
Fixpoint forEach {A T : Type} (f : A -> nat -> T -> T) (l : list A) (idx : nat)
    (st : T) : T :=
  match l with
  | [] => st
  | x :: l' => forEach f l' (S idx) (f x idx st)
  end.

(** How many render passes a run has made. *)
Definition renders (st : state) : nat :=
  length (filter (fun i => i = Rendered) (log st)).

(* ===================================================================== *)
(** ** setupCard and its handlers                                         *)
(* ===================================================================== *)

Definition no_track_html : string :=
  "<p>⚠️ No WebVTT track found. Add a .vtt file and a &lt;track&gt; tag.</p>".

Definition loading_html : string :=
  "<p>Loading transcript… If it never loads, check your .vtt path and formatting.</p>".

Definition maxAttempts : nat := 20.

Definition interval_ms : nat := 150.

(** The body of the [cues.forEach] callback up to the listeners: the new
    [div] with its two spans. *)
Definition createLine (c : cue) (idx : nat) : element :=
  {| classList := ["line"];
     attributes := [("data-idx", pretty idx); ("role", "button"); ("tabindex", "0")];
     time_text := formatTime (Num (Fin (startTime c)));
     body_text := text c;
     jump_cue := c |}.

(** One iteration of [cues.forEach]: allocate the [div], append it to the
    container, push it on [lines], enter it in [cueToLine]. *)
Definition render_cue (c : cue) (idx : nat) (st : state) : state :=
  let div := length (heap st) in
  set_cueToLine (fun m => <[cue_id c := div]> m)
    (set_lines (fun l => l ++ [div])
      (set_transcript (fun t => t ++ [Elem div])
        (set_heap (fun h => h ++ [createLine c idx]) st))).

Definition renderFromCues (e : environment) (st : state) : state :=
  let st := record Rendered st in
  let st := set_transcript (fun _ => []) st in
  let st := set_lines (fun _ => []) st in
  let st := set_cueToLine (fun _ => ∅) st in
  let cues := match track_cues e with Some l => l | None => [] end in
  match cues with
  | [] => set_transcript (fun _ => [Html loading_html]) st
  | _ :: _ => forEach render_cue cues 0 st
  end.

(** [track.cues && track.cues.length] as a condition. *)
Definition has_cues (e : environment) : bool :=
  match track_cues e with
  | Some (_ :: _) => true
  | _ => false
  end.

Definition clearInterval (st : state) : state := set_timer None st.

(** The callback given to [setInterval]. *)
Definition tick (e : environment) (st : state) : state :=
  let st := set_attempts S st in
  if has_cues e then renderFromCues e (clearInterval st)
  else if (maxAttempts <=? attempts st)%nat then renderFromCues e (clearInterval st)
  else st.

Definition clearActive (st : state) : state :=
  set_heap (fun h => foldl (fun h l => alter (classList_remove "active") l h) h (lines st)) st.

(** [details && details.open && autoScrollCheckbox && autoScrollCheckbox.checked]. *)
Definition doScroll (e : environment) : bool :=
  match details e with
  | None => false
  | Some open =>
      if open then
        match autoScrollCheckbox e with
        | None => false
        | Some checked => checked
        end
      else false
  end.

Definition paddingTop : Qc := lit 20.

Definition paddingBottom : Qc := lit 30.

Definition setActiveCue (e : environment) (c : option cue) (st : state) : state :=
  match c with
  | None => st
  | Some c =>
      let st := clearActive st in
      match cueToLine st !! cue_id c with
      | None => st
      | Some line =>
          let st := set_heap (alter (classList_add "active") line) st in
          if doScroll e then
            let parentRect := parentRect e in
            let lineRect := lineRect e line in
            if Qclt_le_dec (rect_top lineRect) (js_add (rect_top parentRect) paddingTop) then
              let delta :=
                js_sub (rect_top lineRect) (js_add (rect_top parentRect) paddingTop) in
              set_scrollTop (fun s => scroll_to e (js_add s delta)) st
            else if Qclt_le_dec (js_sub (rect_bottom parentRect) paddingBottom)
                                (rect_bottom lineRect) then
              let delta :=
                js_sub (rect_bottom lineRect) (js_sub (rect_bottom parentRect) paddingBottom) in
              set_scrollTop (fun s => scroll_to e (js_add s delta)) st
            else st
          else st
      end
  end.

(** The [cuechange] listener. *)
Definition on_cuechange (e : environment) (st : state) : state :=
  let active :=
    match activeCues e with
    | Some (c :: _) => Some c
    | _ => None
    end in
  setActiveCue e active st.

(** [audio.play()]: the host decides whether playback starts. *)
Definition audio_play (e : environment) (st : state) : state * promise :=
  match play_result e with
  | Fulfilled => (set_paused false st, Fulfilled)
  | Rejected r => (st, Rejected r)
  end.

(** [p.catch(h)] for a handler that returns normally. *)
Definition catch (p : promise) (h : string -> unit) : promise :=
  match p with
  | Fulfilled => Fulfilled
  | Rejected r => match h r with tt => Fulfilled end
  end.

(** A promise nobody holds any more: a rejection left in it is reported by
    the host. *)
Definition settle (p : promise) (st : state) : state :=
  match p with
  | Fulfilled => st
  | Rejected r => record (UnhandledRejection r) st
  end.

(** The [jump] closure of the line rendered for cue [c]. *)
Definition jump (e : environment) (c : cue) (st : state) : state :=
  let st := set_currentTime (js_add (startTime c) (fl (dec 1 100))) st in
  let (st, p) := audio_play e st in
  settle (catch p (fun _ => tt)) st.

Definition on_line_click (e : environment) (c : cue) (st : state) : state :=
  jump e c st.

Definition on_line_keydown (e : environment) (c : cue) (key : string) (st : state) : state :=
  if (String.eqb key "Enter" || String.eqb key " ")%bool
  then jump e c (record DefaultPrevented st)
  else st.

(** Assigning to [audio.currentTime]: a value that is not finite is
    refused with a [TypeError]. *)
Definition assign_currentTime (n : number) (st : state) : state :=
  match n with
  | Fin q => set_currentTime q st
  | _ => record TypeError st
  end.

(** The click listener of a [button[data-action]]. *)
Definition on_button_click (e : environment) (action : string) (st : state) : state :=
  let st :=
    if String.eqb action "jump-back"
    then assign_currentTime (Math_max (Fin 0) (Fin (js_sub (currentTime st) (lit 5)))) st
    else st in
  if String.eqb action "jump-forward"
  then assign_currentTime
         (Math_min (or_else (Num (duration e)) PosInf)
                   (Fin (js_add (currentTime st) (lit 5)))) st
  else st.

(** The elements [setupCard] looks up in a card. *)
Record player : Type := Player {
  player_currentTime : Qc;
  player_paused : bool;
  textTracks : list string;
}.

Record container : Type := Container {
  container_markup : list string;
  container_scrollTop : Qc;
}.

Record card : Type := Card {
  audio : option player;
  transcriptEl : option container;
}.

Inductive setup_result : Type :=
  | Skipped
  | NoTrack (children : list node)
  | Installed (st : state).

(** The state [setupCard] leaves once it has hidden the track, declared
    [lines], [cueToLine] and [attempts], and started the timer. *)
Definition installed (a : player) (t : container) : state :=
  {| heap := [];
     transcript := Html <$> container_markup t;
     scrollTop := container_scrollTop t;
     lines := [];
     cueToLine := ∅;
     attempts := 0;
     timer := Some interval_ms;
     clock := 0;
     track_mode := "hidden";
     currentTime := player_currentTime a;
     paused := player_paused a;
     log := [] |}.

(** [setupCard]: the two early returns, then the timer and the listeners. *)
Definition setupCard (c : card) : setup_result :=
  match audio c, transcriptEl c with
  | Some a, Some t =>
      match textTracks a with
      | [] => NoTrack [Html no_track_html]
      | _ :: _ =>
          Installed (installed a t)
      end
  | _, _ => Skipped
  end.

(** Events the host delivers to an installed card. *)
Inductive event : Type :=
  | TimerFired
  | CueChange
  | Click (target : nat)
  | KeyDown (target : nat) (key : string)
  | ButtonClick (action : string).

(** Delivery of one event.  The interval callback runs only while the timer
    is set, one period after the previous tick; a line's listeners are
    those of the element the event targets. *)
Definition step (e : environment) (ev : event) (st : state) : state :=
  match ev with
  | TimerFired =>
      match timer st with
      | Some d => tick e (set_clock (fun t => t + d)%nat st)
      | None => st
      end
  | CueChange => on_cuechange e st
  | Click target =>
      match heap st !! target with
      | Some el => on_line_click e (jump_cue el) st
      | None => st
      end
  | KeyDown target key =>
      match heap st !! target with
      | Some el => on_line_keydown e (jump_cue el) key st
      | None => st
      end
  | ButtonClick action => on_button_click e action st
  end.

Fixpoint run (evs : list (environment * event)) (st : state) : state :=
  match evs with
  | [] => st
  | (e, ev) :: evs' => run evs' (step e ev st)
  end.

(** The polling loop on its own: [n] timer periods, where [world t] is what
    the host shows at time [t] (in milliseconds). *)
Fixpoint poll (world : nat -> environment) (n : nat) (st : state) : state :=
  match n with
  | O => st
  | S n' =>
      match timer st with
      | Some d => poll world n' (tick (world (clock st + d)%nat) (set_clock (fun t => t + d)%nat st))
      | None => st
      end
  end.

(** Whether the element at [a] carries the [active] class, and the rendered
    lines that do. *)
Definition is_active (st : state) (a : nat) : bool :=
  match heap st !! a with
  | Some el => bool_decide ("active" ∈ classList el)
  | None => false
  end.

Definition rendered_lines (st : state) : list nat :=
  omap (fun n => match n with Elem a => Some a | Html _ => None end) (transcript st).

Definition active_lines (st : state) : list nat :=
  filter (fun a => is_active st a = true) (rendered_lines st).

(* ===================================================================== *)
(** ** Vocabulary of the statements                                       *)
(* ===================================================================== *)

(** The textual shape [MM:SS]: two digits, a colon, two digits. *)
Definition is_digit (c : ascii) : bool :=
  (48 <=? nat_of_ascii c)%nat && (nat_of_ascii c <=? 57)%nat.

Definition is_MMSS (s : string) : bool :=
  match s with
  | String m1 (String m2 (String sep (String s1 (String s2 EmptyString)))) =>
      is_digit m1 && is_digit m2 && Ascii.eqb sep ":" && is_digit s1 && is_digit s2
  | _ => false
  end.

(** Two decimal digits of a number below one hundred. *)
Definition two_digits (z : Z) : string :=
  String (ascii_of_nat (48 + Z.to_nat (z / 10)))
    (String (ascii_of_nat (48 + Z.to_nat (z mod 10))) EmptyString).


(** The state after [a] fruitless ticks of period [d], and after the tick
    [k] that renders. *)
Definition waited (d a : nat) (st : state) : state :=
  set_attempts (fun _ => a) (set_clock (fun _ => (d * a)%nat) st).

Definition polled (world : nat -> environment) (d k : nat) (st : state) : state :=
  renderFromCues (world (d * k)%nat) (clearInterval (waited d k st)).

(** The elements the container shows, in order. *)
Definition rendered_elements (st : state) : list element :=
  omap (fun a => heap st !! a) (rendered_lines st).

(** What holds of every state an installed card can reach: the container
    shows the elements of [lines], each once. *)
Definition consistent (st : state) : Prop :=
  rendered_lines st = lines st /\ NoDup (lines st).

(* ===================================================================== *)
(** ** A small page to run the model on                                   *)
(* ===================================================================== *)

(** A host that keeps the scroll offset between [lo] and [hi]. *)
Definition clamp (lo hi v : Qc) : Qc :=
  if Qclt_le_dec v lo then lo else if Qclt_le_dec hi v then hi else v.

Definition hello : cue := Cue 0 (lit 0) "Hello".

Definition world_cue : cue := Cue 1 (lit 5) "World".

Definition demo_player : player := Player (lit 0) true ["captions"].

Definition demo_container : container := Container [] (lit 0).

Definition demo_card : card := Card (Some demo_player) (Some demo_container).

(** The host with nothing to show: no cues, wrapper and checkbox absent,
    duration unknown. *)
Definition idle : environment :=
  Env None None None None (Rect (lit 0) (lit 200)) (fun _ => Rect (lit 0) (lit 18))
      (clamp (lit 0) (lit 1000)) NaN Fulfilled.

(** The host once the two cues are loaded, with [active] the active cues;
    auto-scroll is on and the lines lie below the container's window. *)
Definition loaded (active : list cue) : environment :=
  Env (Some [hello; world_cue]) (Some active) (Some true) (Some true)
      (Rect (lit 0) (lit 200)) (fun a => Rect (lit 300) (lit 318))
      (clamp (lit 0) (lit 1000)) (Fin (lit 20)) (Rejected "NotAllowedError").

(** The card after the first tick has rendered the two cues and the first
    cue has become active. *)
Definition highlighted : state :=
  run [(loaded [], TimerFired); (loaded [hello], CueChange)]
      (installed demo_player demo_container).

(** The card whose polling ran out with no cue in sight. *)
Definition still_loading : state :=
  poll (fun _ => idle) 20 (installed demo_player demo_container).

(** The host of a media resource of length zero. *)
Definition empty_media : environment :=
  Env None None None None (Rect (lit 0) (lit 200)) (fun _ => Rect (lit 0) (lit 18))
      (clamp (lit 0) (lit 1000)) (Fin (lit 0)) Fulfilled.

(** A position of ten seconds in a resource of twenty, and in one whose
    length is not known. *)
Definition at_ten : state :=
  set_currentTime (lit 10) (installed demo_player demo_container).

Definition twenty_long : environment :=
  Env None None None None (Rect (lit 0) (lit 200)) (fun _ => Rect (lit 0) (lit 18))
      (clamp (lit 0) (lit 1000)) (Fin (lit 20)) Fulfilled.


(** [el] is the line made for cue [c] at position [idx] of the cue list,
    marked active or not. *)
Definition line_of (el : element) (c : cue) (idx : nat) : Prop :=
  attributes el = [("data-idx", pretty idx); ("role", "button"); ("tabindex", "0")] /\
  time_text el = formatTime (Num (Fin (startTime c))) /\
  body_text el = text c /\
  jump_cue el = c /\
  (classList el = ["line"] \/ classList el = ["line"; "active"]).

(** The container shows the lines of the cue list [cues], allocated from
    address [base] on, and [cueToLine] points into them. *)
Definition shows (st : state) (cues : list cue) (base : nat) : Prop :=
  rendered_lines st = lines st /\
  lines st = seq base (length cues) /\
  (forall i c, cues !! i = Some c ->
     exists el, heap st !! (base + i)%nat = Some el /\ line_of el c i) /\
  (forall k a, cueToLine st !! k = Some a ->
     exists i c, cues !! i = Some c /\ cue_id c = k /\ a = (base + i)%nat) /\
  (forall i c, cues !! i = Some c -> is_Some (cueToLine st !! cue_id c)).

(** The part of the state that the highlight, the transcript and the polling
    loop live in; seeking leaves it alone. *)
Definition same_view (st st' : state) : Prop :=
  heap st' = heap st /\ transcript st' = transcript st /\ lines st' = lines st /\
  cueToLine st' = cueToLine st /\ scrollTop st' = scrollTop st /\
  timer st' = timer st /\ attempts st' = attempts st /\ clock st' = clock st /\
  track_mode st' = track_mode st.

(** A cue the table has no line for. *)
Definition stranger : cue := Cue 7 (lit 9) "Elsewhere".

(** A cue that starts at the double nearest to 0.2 s, the host that shows
    it alone, and the card that has rendered it. *)
Definition fifth : cue := Cue 2 (fl (dec 2 10)) "A fifth of a second in".

Definition shows_fifth : environment :=
  Env (Some [fifth]) (Some [fifth]) (Some true) (Some true)
      (Rect (lit 0) (lit 200)) (fun _ => Rect (lit 0) (lit 18))
      (clamp (lit 0) (lit 1000)) (Fin (lit 20)) Fulfilled.

Definition fifth_rendered : state :=
  run [(shows_fifth, TimerFired)] (installed demo_player demo_container).

(** The host once the two cues are loaded, with the wrapper collapsed and
    the checkbox checked. *)
Definition collapsed (active : list cue) : environment :=
  Env (Some [hello; world_cue]) (Some active) (Some false) (Some true)
      (Rect (lit 0) (lit 200)) (fun a => Rect (lit 300) (lit 318))
      (clamp (lit 0) (lit 1000)) (Fin (lit 20)) Fulfilled.

(** Auto-scroll on, with a container from 0.7 to 200.7 and the active line
    from 20.7 to 320.7 (each the double nearest). *)
Definition fine_rects : environment :=
  Env (Some [hello; world_cue]) (Some [hello]) (Some true) (Some true)
      (Rect (fl (dec 7 10)) (fl (dec 2007 10)))
      (fun _ => Rect (fl (dec 207 10)) (fl (dec 3207 10)))
      (clamp (lit 0) (lit 1000)) (Fin (lit 20)) Fulfilled.

(** Auto-scroll on, with the active line 15 above the padded top of a
    container that is scrolled to its start. *)
Definition line_above : environment :=
  Env (Some [hello; world_cue]) (Some [hello]) (Some true) (Some true)
      (Rect (lit 0) (lit 200)) (fun _ => Rect (lit 5) (lit 23))
      (clamp (lit 0) (lit 1000)) (Fin (lit 20)) Fulfilled.

(** The card with its two lines rendered and nothing scrolled. *)
Definition rendered : state :=
  run [(loaded [], TimerFired)] (installed demo_player demo_container).

(** A position of 60.086268 s (the double nearest) in a resource of one
    hour, and a position of 0.1 s. *)
Definition at_sixty : state :=
  set_currentTime (fl (dec 60086268 1000000)) (installed demo_player demo_container).

Definition hour_long : environment :=
  Env None None None None (Rect (lit 0) (lit 200)) (fun _ => Rect (lit 0) (lit 18))
      (clamp (lit 0) (lit 1000)) (Fin (lit 3600)) Fulfilled.

Definition at_tenth : state :=
  set_currentTime (fl (dec 1 10)) (installed demo_player demo_container).


(* ===================================================================== *)
(** ** Rounding to binary64                                               *)
(* ===================================================================== *)

Section Rounding.

Local Open Scope Q_scope.

Lemma pow2_pos (e : Z) : 0 < pow2 e.
Proof. apply Qpower_0_lt. reflexivity. Qed.

Lemma pow2_add (a b : Z) : pow2 (a + b) == pow2 a * pow2 b.
Proof. apply Qpower_plus. discriminate. Qed.

Lemma pow2_0 : pow2 0 == 1.
Proof. reflexivity. Qed.

Lemma pow2_cancel (a : Z) : pow2 a * pow2 (- a) == 1.
Proof. rewrite <- pow2_add, Z.add_opp_diag_r. reflexivity. Qed.

Lemma pow2_le (a b : Z) : (a <= b)%Z -> pow2 a <= pow2 b.
Proof. intros H. apply Qpower_le_compat_l; [exact H|]. discriminate. Qed.

Lemma pow2_lt (a b : Z) : (a < b)%Z -> pow2 a < pow2 b.
Proof. intros H. apply Qpower_lt_compat_l; [exact H|]. reflexivity. Qed.

Lemma pow2_lt_inv (a b : Z) : pow2 a < pow2 b -> (a < b)%Z.
Proof.
intros H. destruct (Z_lt_le_dec a b) as [|Hge]; [assumption|]. exfalso.
apply pow2_le in Hge. apply (Qlt_irrefl (pow2 a)). eapply Qlt_le_trans; eassumption.
Qed.

Lemma pow2_Z (a : Z) : (0 <= a)%Z -> pow2 a == inject_Z (2 ^ a).
Proof.
intros H. unfold pow2. rewrite <- (Z2Nat.id a H).
induction (Z.to_nat a) as [|n IH].
- reflexivity.
- rewrite Nat2Z.inj_succ, <- Z.add_1_r.
  rewrite Qpower_plus by discriminate. rewrite IH.
  rewrite Z.pow_add_r by lia. rewrite inject_Z_mult. reflexivity.
Qed.

Lemma pow2_Z_back (a : Z) : (0 <= a)%Z -> inject_Z (2 ^ a) == pow2 a.
Proof. intros H. symmetry. apply pow2_Z. exact H. Qed.

Lemma rne_comp (x y : Q) : x == y -> rne x = rne y.
Proof.
intros H. unfold rne. rewrite (Qfloor_comp x y H).
assert (Hc : (x - inject_Z (Qfloor y) ?= 1 # 2) = (y - inject_Z (Qfloor y) ?= 1 # 2)).
{ apply Qcompare_comp; [|reflexivity]. rewrite H. reflexivity. }
rewrite Hc. reflexivity.
Qed.

Lemma rne_Z (z : Z) : rne (inject_Z z) = z.
Proof.
unfold rne. rewrite Qfloor_Z.
assert (Hc : (inject_Z z - inject_Z z ?= 1 # 2) = Lt).
{ apply Qlt_alt. assert (inject_Z z - inject_Z z == 0) as -> by ring. reflexivity. }
rewrite Hc. reflexivity.
Qed.

Lemma rne_floor (x : Q) : (Qfloor x <= rne x <= Qfloor x + 1)%Z.
Proof.
unfold rne. destruct (x - inject_Z (Qfloor x) ?= 1 # 2); [destruct (Z.even _)| |]; lia.
Qed.

Lemma rne_mono (x y : Q) : x <= y -> (rne x <= rne y)%Z.
Proof.
intros H. pose proof (Qfloor_resp_le x y H) as Hf.
pose proof (rne_floor x) as Hx. pose proof (rne_floor y) as Hy.
destruct (Z.eq_dec (Qfloor x) (Qfloor y)) as [Heq|Hne]; [|lia].
unfold rne in *. rewrite <- Heq in *.
assert (Hr : x - inject_Z (Qfloor x) <= y - inject_Z (Qfloor x)).
{ apply Qplus_le_compat; [exact H|apply Qle_refl]. }
destruct (x - inject_Z (Qfloor x) ?= 1 # 2) eqn:Ex;
  destruct (y - inject_Z (Qfloor x) ?= 1 # 2) eqn:Ey;
  try (destruct (Z.even (Qfloor x)); lia); try lia; exfalso.
- apply Qeq_alt in Ex. apply Qlt_alt in Ey. rewrite Ex in Hr.
  apply (Qlt_irrefl (1#2)). eapply Qle_lt_trans; eassumption.
- apply Qgt_alt in Ex. apply Qeq_alt in Ey. rewrite Ey in Hr.
  apply (Qlt_irrefl (1#2)). eapply Qlt_le_trans; eassumption.
- apply Qgt_alt in Ex. apply Qlt_alt in Ey.
  apply (Qlt_irrefl (1#2)). eapply Qlt_trans; [exact Ex|]. eapply Qle_lt_trans; eassumption.
Qed.

Lemma rne_le_Z (x : Q) (n : Z) : x <= inject_Z n -> (rne x <= n)%Z.
Proof. intros H. rewrite <- (rne_Z n). apply rne_mono. exact H. Qed.

Lemma rne_ge_Z (x : Q) (n : Z) : inject_Z n <= x -> (n <= rne x)%Z.
Proof. intros H. rewrite <- (rne_Z n). apply rne_mono. exact H. Qed.

Lemma ilog2_spec (x : Q) :
0 < x -> pow2 (ilog2 x) <= x /\ x < pow2 (ilog2 x + 1).
Proof.
intros Hx. destruct x as [n d]. unfold ilog2. cbn [Qnum Qden].
assert (Hn : (0 < n)%Z) by (unfold Qlt in Hx; cbn in Hx; lia).
set (a := Z.log2 n). set (b := Z.log2 (Z.pos d)).
assert (Ha0 : (0 <= a)%Z) by apply Z.log2_nonneg.
assert (Hb0 : (0 <= b)%Z) by apply Z.log2_nonneg.
destruct (Z.log2_spec n Hn) as [Ha1 Ha2]. fold a in Ha1, Ha2.
destruct (Z.log2_spec (Z.pos d) (Pos2Z.is_pos d)) as [Hb1 Hb2]. fold b in Hb1, Hb2.
assert (Hxd : n # d == inject_Z n / inject_Z (Z.pos d)) by apply Qmake_Qdiv.
assert (Hd : 0 < inject_Z (Z.pos d)) by reflexivity.
assert (Hup : n # d < pow2 (a - b + 1)).
{ rewrite Hxd. apply Qlt_shift_div_r; [exact Hd|].
  apply Qlt_le_trans with (pow2 (a + 1)).
  - rewrite pow2_Z by lia. rewrite <- Zlt_Qlt.
    replace (a + 1)%Z with (Z.succ a) by lia. exact Ha2.
  - replace (a + 1)%Z with ((a - b + 1) + b)%Z by lia. rewrite pow2_add.
    apply Qmult_le_l; [apply pow2_pos|].
    rewrite pow2_Z by lia. rewrite <- Zle_Qle. exact Hb1. }
assert (Hlow : pow2 (a - b - 1) <= n # d).
{ rewrite Hxd. apply Qle_shift_div_l; [exact Hd|].
  apply Qle_trans with (pow2 a).
  - replace a with ((a - b - 1) + (b + 1))%Z at 2 by lia. rewrite pow2_add.
    apply Qmult_le_l; [apply pow2_pos|].
    rewrite pow2_Z by lia. rewrite <- Zle_Qle.
    replace (b + 1)%Z with (Z.succ b) by lia. lia.
  - rewrite pow2_Z by lia. rewrite <- Zle_Qle. exact Ha1. }
destruct (Qle_bool (pow2 (a - b)) (n # d)) eqn:E.
- apply Qle_bool_iff in E. split; assumption.
- split; [exact Hlow|]. replace (a - b - 1 + 1)%Z with (a - b)%Z by lia.
  apply Qnot_le_lt. intros Hle. apply Qle_bool_iff in Hle. congruence.
Qed.

Lemma ilog2_unique (x : Q) (k : Z) :
pow2 k <= x -> x < pow2 (k + 1) -> ilog2 x = k.
Proof.
intros H1 H2.
assert (Hx : 0 < x) by (eapply Qlt_le_trans; [apply pow2_pos|exact H1]).
destruct (ilog2_spec x Hx) as [H3 H4].
assert (Ha : (ilog2 x < k + 1)%Z)
  by (apply pow2_lt_inv; eapply Qle_lt_trans; eassumption).
assert (Hb : (k < ilog2 x + 1)%Z)
  by (apply pow2_lt_inv; eapply Qle_lt_trans; eassumption).
lia.
Qed.

Lemma ilog2_comp (x y : Q) : 0 < x -> x == y -> ilog2 x = ilog2 y.
Proof.
intros Hx H. destruct (ilog2_spec x Hx) as [H1 H2].
symmetry. apply ilog2_unique; rewrite <- H; assumption.
Qed.

Lemma ilog2_lt (x : Q) (k : Z) : 0 < x -> x < pow2 k -> (ilog2 x < k)%Z.
Proof.
intros Hx H. destruct (ilog2_spec x Hx) as [H1 _].
apply pow2_lt_inv. eapply Qle_lt_trans; eassumption.
Qed.

Lemma ilog2_ge (x : Q) (k : Z) : pow2 k <= x -> (k <= ilog2 x)%Z.
Proof.
intros H.
assert (Hx : 0 < x) by (eapply Qlt_le_trans; [apply pow2_pos|exact H]).
destruct (ilog2_spec x Hx) as [_ H2].
assert (k < ilog2 x + 1)%Z by (apply pow2_lt_inv; eapply Qle_lt_trans; eassumption).
lia.
Qed.

Lemma ilog2_mono (x y : Q) : 0 < x -> x <= y -> (ilog2 x <= ilog2 y)%Z.
Proof.
intros Hx H. destruct (ilog2_spec x Hx) as [H1 _].
apply ilog2_ge. eapply Qle_trans; eassumption.
Qed.

Lemma cexp_comp (x y : Q) : 0 < x -> x == y -> cexp x = cexp y.
Proof. intros Hx H. unfold cexp. rewrite (ilog2_comp x y Hx H). reflexivity. Qed.

Lemma cexp_mono (x y : Q) : 0 < x -> x <= y -> (cexp x <= cexp y)%Z.
Proof. intros Hx H. unfold cexp. pose proof (ilog2_mono x y Hx H). lia. Qed.

Lemma scaled_lt (x : Q) : 0 < x -> x * pow2 (- cexp x) < inject_Z (2 ^ 53).
Proof.
intros Hx. destruct (ilog2_spec x Hx) as [_ Hup].
rewrite <- (pow2_Z 53) by lia.
apply Qlt_le_trans with (pow2 (ilog2 x + 1) * pow2 (- cexp x)).
- apply Qmult_lt_compat_r; [apply pow2_pos|exact Hup].
- rewrite <- pow2_add. apply pow2_le. unfold cexp. lia.
Qed.

Lemma scaled_nonneg (x : Q) (c : Z) : 0 <= x -> 0 <= x * pow2 c.
Proof. intros H. apply Qmult_le_0_compat; [exact H|]. apply Qlt_le_weak, pow2_pos. Qed.

Lemma round_pos_nonneg (x : Q) : 0 <= x -> 0 <= round_pos x.
Proof.
intros H. unfold round_pos.
apply Qmult_le_0_compat; [|apply Qlt_le_weak, pow2_pos].
change 0 with (inject_Z 0). rewrite <- Zle_Qle. apply rne_ge_Z.
apply scaled_nonneg. exact H.
Qed.

Lemma round_pos_le_top (x : Q) : 0 < x -> round_pos x <= pow2 (cexp x + 53).
Proof.
intros Hx. unfold round_pos. rewrite Z.add_comm, pow2_add.
apply Qmult_le_compat_r; [|apply Qlt_le_weak, pow2_pos].
rewrite (pow2_Z 53) by lia. rewrite <- Zle_Qle. apply rne_le_Z.
apply Qlt_le_weak. apply scaled_lt. exact Hx.
Qed.

Lemma round_pos_ge_normal (x : Q) :
0 < x -> cexp x = (ilog2 x - 52)%Z -> pow2 (cexp x + 52) <= round_pos x.
Proof.
intros Hx Hc. destruct (ilog2_spec x Hx) as [Hlow _].
unfold round_pos. rewrite Z.add_comm, pow2_add.
apply Qmult_le_compat_r; [|apply Qlt_le_weak, pow2_pos].
rewrite (pow2_Z 52) by lia. rewrite <- Zle_Qle. apply rne_ge_Z.
rewrite <- (pow2_Z 52) by lia.
apply Qle_trans with (pow2 (ilog2 x) * pow2 (- cexp x)).
- rewrite <- pow2_add. apply pow2_le. lia.
- apply Qmult_le_compat_r; [exact Hlow|apply Qlt_le_weak, pow2_pos].
Qed.

Lemma round_pos_comp (x y : Q) : 0 < x -> x == y -> round_pos x == round_pos y.
Proof.
intros Hx H. unfold round_pos. rewrite (cexp_comp x y Hx H).
rewrite (rne_comp (x * pow2 (- cexp y)) (y * pow2 (- cexp y))); [reflexivity|].
rewrite H. reflexivity.
Qed.

Lemma round_pos_mono (x y : Q) : 0 < x -> x <= y -> round_pos x <= round_pos y.
Proof.
intros Hx H.
assert (Hy : 0 < y) by (eapply Qlt_le_trans; eassumption).
pose proof (cexp_mono x y Hx H) as Hc.
destruct (Z.eq_dec (cexp x) (cexp y)) as [Heq|Hne].
- unfold round_pos. rewrite Heq.
  apply Qmult_le_compat_r; [|apply Qlt_le_weak, pow2_pos].
  rewrite <- Zle_Qle. apply rne_mono.
  apply Qmult_le_compat_r; [exact H|apply Qlt_le_weak, pow2_pos].
- assert (Hn : cexp y = (ilog2 y - 52)%Z) by (unfold cexp in *; lia).
  apply Qle_trans with (pow2 (cexp x + 53)); [apply round_pos_le_top; exact Hx|].
  apply Qle_trans with (pow2 (cexp y + 52)); [apply pow2_le; lia|].
  apply round_pos_ge_normal; assumption.
Qed.

Lemma round64_0 : round64 0 == 0.
Proof. reflexivity. Qed.

Lemma round64_pos (x : Q) : 0 < x -> round64 x = round_pos x.
Proof.
intros H. unfold round64.
assert (E : (x ?= 0) = Gt) by (apply Qgt_alt; exact H). rewrite E. reflexivity.
Qed.

Lemma round64_neg (x : Q) : x < 0 -> round64 x = - round_pos (- x).
Proof.
intros H. unfold round64.
assert (E : (x ?= 0) = Lt) by (apply Qlt_alt; exact H). rewrite E. reflexivity.
Qed.

Lemma round64_zero (x : Q) : x == 0 -> round64 x = 0.
Proof.
intros H. unfold round64.
assert (E : (x ?= 0) = Eq) by (apply Qeq_alt; exact H). rewrite E. reflexivity.
Qed.

Lemma Q_sign_cases (x : Q) : x < 0 \/ x == 0 \/ 0 < x.
Proof.
destruct (Q_dec x 0) as [[H|H]|H]; [left; exact H|right; right; exact H|right; left; exact H].
Qed.

Lemma Qopp_pos (x : Q) : x < 0 -> 0 < - x.
Proof. intros H. apply Qopp_lt_compat in H. exact H. Qed.

Lemma round64_comp (x y : Q) : x == y -> round64 x == round64 y.
Proof.
intros H. destruct (Q_sign_cases x) as [Hx|[Hx|Hx]].
- assert (Hy : y < 0) by (rewrite <- H; exact Hx).
  rewrite (round64_neg x Hx), (round64_neg y Hy).
  apply Qopp_comp. apply round_pos_comp; [apply Qopp_pos; exact Hx|].
  rewrite H. reflexivity.
- assert (Hy : y == 0) by (rewrite <- H; exact Hx).
  rewrite (round64_zero x Hx), (round64_zero y Hy). reflexivity.
- assert (Hy : 0 < y) by (rewrite <- H; exact Hx).
  rewrite (round64_pos x Hx), (round64_pos y Hy). apply round_pos_comp; assumption.
Qed.

Lemma round64_nonneg (x : Q) : 0 <= x -> 0 <= round64 x.
Proof.
intros H. destruct (Q_sign_cases x) as [Hx|[Hx|Hx]].
- exfalso. apply (Qlt_irrefl x). eapply Qlt_le_trans; eassumption.
- rewrite (round64_zero x Hx). apply Qle_refl.
- rewrite (round64_pos x Hx). apply round_pos_nonneg. exact H.
Qed.

Lemma round64_nonpos (x : Q) : x <= 0 -> round64 x <= 0.
Proof.
intros H. destruct (Q_sign_cases x) as [Hx|[Hx|Hx]].
- rewrite (round64_neg x Hx).
  assert (H0 : 0 <= round_pos (- x))
    by (apply round_pos_nonneg, Qlt_le_weak, Qopp_pos; exact Hx).
  apply Qopp_le_compat in H0. exact H0.
- rewrite (round64_zero x Hx). apply Qle_refl.
- exfalso. apply (Qlt_irrefl x). eapply Qle_lt_trans; eassumption.
Qed.

Lemma round64_mono (x y : Q) : x <= y -> round64 x <= round64 y.
Proof.
intros H. destruct (Q_sign_cases y) as [Hy|[Hy|Hy]].
- assert (Hx : x < 0) by (eapply Qle_lt_trans; eassumption).
  rewrite (round64_neg x Hx), (round64_neg y Hy).
  apply Qopp_le_compat. apply round_pos_mono; [apply Qopp_pos; exact Hy|].
  apply Qopp_le_compat. exact H.
- rewrite (round64_zero y Hy). apply round64_nonpos. rewrite <- Hy. exact H.
- destruct (Q_sign_cases x) as [Hx|[Hx|Hx]].
  + apply Qle_trans with 0; [apply round64_nonpos, Qlt_le_weak; exact Hx|].
    apply round64_nonneg, Qlt_le_weak. exact Hy.
  + rewrite (round64_zero x Hx). apply round64_nonneg, Qlt_le_weak. exact Hy.
  + rewrite (round64_pos x Hx), (round64_pos y Hy). apply round_pos_mono; assumption.
Qed.

Lemma round_pos_exact (x : Q) (m e : Z) :
0 < x -> x == inject_Z m * pow2 e -> (m < 2 ^ 53)%Z -> (-1074 <= e)%Z ->
round_pos x == x.
Proof.
intros Hx Hrep Hm He.
assert (Hc : (cexp x <= e)%Z).
{ assert (Hlt : x < pow2 (e + 53)).
  { rewrite Hrep, Z.add_comm, pow2_add.
    apply Qmult_lt_compat_r; [apply pow2_pos|].
    rewrite (pow2_Z 53) by lia. rewrite <- Zlt_Qlt. exact Hm. }
  pose proof (ilog2_lt x _ Hx Hlt). unfold cexp. lia. }
unfold round_pos. remember (cexp x) as c eqn:Ec. clear Ec.
assert (Hs : x * pow2 (- c) == inject_Z (m * 2 ^ (e - c))).
{ rewrite Hrep, inject_Z_mult, <- (pow2_Z (e - c)) by lia.
  rewrite <- Qmult_assoc, <- pow2_add. reflexivity. }
rewrite (rne_comp _ _ Hs), rne_Z.
rewrite inject_Z_mult, <- (pow2_Z (e - c)) by lia.
rewrite <- Qmult_assoc, <- pow2_add.
replace (e - c + c)%Z with e by lia. symmetry. exact Hrep.
Qed.

(** Numbers of the form [m * 2^e] with [|m| < 2^53] and [e >= -1074] are
  their own rounding. *)
Lemma round64_exact (x : Q) (m e : Z) :
x == inject_Z m * pow2 e -> (Z.abs m < 2 ^ 53)%Z -> (-1074 <= e)%Z ->
round64 x == x.
Proof.
intros Hrep Hm He. destruct (Q_sign_cases x) as [Hx|[Hx|Hx]].
- rewrite (round64_neg x Hx).
  rewrite (round_pos_exact (- x) (- m) e); [ring|apply Qopp_pos; exact Hx| |lia|exact He].
  rewrite Hrep, inject_Z_opp. ring.
- rewrite (round64_zero x Hx). symmetry. exact Hx.
- rewrite (round64_pos x Hx). apply (round_pos_exact x m e); [exact Hx|exact Hrep|lia|exact He].
Qed.

Lemma round_pos_repr (x : Q) :
0 < x ->
(0 <= rne (x * pow2 (- cexp x)) <= 2 ^ 53)%Z /\ (-1074 <= cexp x)%Z.
Proof.
intros Hx. split; [split|unfold cexp; lia].
- apply rne_ge_Z. apply scaled_nonneg, Qlt_le_weak. exact Hx.
- apply rne_le_Z. apply Qlt_le_weak, scaled_lt. exact Hx.
Qed.

Lemma round64_idem (x : Q) : round64 (round64 x) == round64 x.
Proof.
assert (Hpos : forall y, 0 < y -> round64 (round_pos y) == round_pos y).
{ intros y Hy. destruct (round_pos_repr y Hy) as [[Hm0 Hm1] Hc].
  destruct (Z.eq_dec (rne (y * pow2 (- cexp y))) (2 ^ 53)) as [Htop|Hne].
  - apply (round64_exact _ (2 ^ 52) (cexp y + 1)); [|cbn; lia|lia].
    unfold round_pos. rewrite Htop.
    rewrite <- (pow2_Z 53), <- (pow2_Z 52) by lia.
    rewrite <- !pow2_add.
    replace (53 + cexp y)%Z with (52 + (cexp y + 1))%Z by lia. reflexivity.
  - apply (round64_exact _ (rne (y * pow2 (- cexp y))) (cexp y)); [reflexivity|lia|exact Hc]. }
destruct (Q_sign_cases x) as [Hx|[Hx|Hx]].
- rewrite (round64_neg x Hx).
  assert (H0 : round64 (- round_pos (- x)) == - round64 (round_pos (- x))).
  { pose proof (round_pos_nonneg (- x) (Qlt_le_weak _ _ (Qopp_pos x Hx))) as Hn.
    destruct (Q_sign_cases (round_pos (- x))) as [Hr|[Hr|Hr]].
    - exfalso. apply (Qlt_irrefl 0). eapply Qle_lt_trans; eassumption.
    - rewrite (round64_zero (round_pos (- x)) Hr).
      rewrite (round64_zero (- round_pos (- x))); [reflexivity|]. rewrite Hr. reflexivity.
    - rewrite round64_neg by (apply Qopp_lt_compat in Hr; exact Hr).
      apply Qopp_comp. rewrite (round64_pos _ Hr).
      apply round_pos_comp; [rewrite Qopp_opp; exact Hr|ring]. }
  rewrite H0. apply Qopp_comp. apply Hpos. apply Qopp_pos. exact Hx.
- rewrite (round64_zero x Hx). reflexivity.
- rewrite (round64_pos x Hx). apply Hpos. exact Hx.
Qed.

End Rounding.


Section Doubles.

Local Open Scope Q_scope.

Lemma fl_this (q : Qc) : this (fl q) == round64 q.
Proof. unfold fl. cbn [this Q2Qc]. apply Qred_correct. Qed.

Lemma fl_mono (a b : Qc) : (a <= b)%Qc -> (fl a <= fl b)%Qc.
Proof.
  intros H. unfold Qcle. rewrite !fl_this. apply round64_mono. exact H.
Qed.

Lemma fl_idem (a : Qc) : fl (fl a) = fl a.
Proof.
  apply Qc_is_canon.
  transitivity (round64 (fl a)); [apply fl_this|].
  transitivity (round64 (round64 a)); [apply round64_comp, fl_this|].
  transitivity (round64 a); [apply round64_idem|]. symmetry. apply fl_this.
Qed.

Lemma fl_exact (q : Qc) (m e : Z) :
  this q == inject_Z m * pow2 e -> (Z.abs m < 2 ^ 53)%Z -> (-1074 <= e)%Z ->
  fl q = q.
Proof.
  intros Hrep Hm He. apply Qc_is_canon. rewrite fl_this.
  exact (round64_exact _ m e Hrep Hm He).
Qed.

Lemma this_lit' (z : Z) : this (lit z) == inject_Z z.
Proof. unfold lit. cbn [this Q2Qc]. apply Qred_correct. Qed.

(** The integers of magnitude below [2^53] are doubles. *)
Lemma fl_lit (z : Z) : (Z.abs z < 2 ^ 53)%Z -> fl (lit z) = lit z.
Proof.
  intros H. apply (fl_exact _ z 0); [|exact H|lia].
  rewrite this_lit'. rewrite pow2_0. ring.
Qed.

Lemma fl_nonneg (a : Qc) : (0 <= a)%Qc -> (0 <= fl a)%Qc.
Proof.
  intros H. unfold Qcle. rewrite fl_this. apply round64_nonneg. exact H.
Qed.

Lemma fl_nonpos (a : Qc) : (a <= 0)%Qc -> (fl a <= 0)%Qc.
Proof.
  intros H. unfold Qcle. rewrite fl_this. apply round64_nonpos. exact H.
Qed.

(** A positive double is a multiple of [2^(cexp x)] by less than 54 bits. *)
Lemma double_repr (q : Qc) :
  is_double q -> 0 < q ->
  exists m : Z, this q == inject_Z m * pow2 (cexp q) /\ (0 <= m <= 2 ^ 53)%Z.
Proof.
  intros Hd Hq. exists (rne (q * pow2 (- cexp q))). split.
  - unfold is_double in Hd. apply (f_equal this) in Hd.
    assert (H : this q == round64 q) by (rewrite <- Hd at 1; apply fl_this).
    rewrite (round64_pos _ Hq) in H. exact H.
  - apply round_pos_repr. exact Hq.
Qed.

Lemma rne_upper (q : Q) : inject_Z (rne q) <= q + (1 # 2).
Proof.
  unfold rne. pose proof (Qfloor_le q) as Hf.
  destruct (q - inject_Z (Qfloor q) ?= 1 # 2) eqn:E.
  - apply Qeq_alt in E. destruct (Z.even (Qfloor q)); [lra|].
    rewrite inject_Z_plus. change (inject_Z 1) with 1. lra.
  - lra.
  - apply Qgt_alt in E. rewrite inject_Z_plus. change (inject_Z 1) with 1. lra.
Qed.

Lemma round_pos_upper (x : Q) : 0 < x -> round_pos x <= x + pow2 (cexp x - 1).
Proof.
  intros Hx. unfold round_pos. set (c := cexp x).
  pose proof (rne_upper (x * pow2 (- c))) as Hr.
  pose proof (pow2_pos c) as Hc.
  assert (H1 : inject_Z (rne (x * pow2 (- c))) * pow2 c
               <= (x * pow2 (- c) + (1 # 2)) * pow2 c)
    by (apply Qmult_le_compat_r; [exact Hr|apply Qlt_le_weak; exact Hc]).
  assert (H2 : (x * pow2 (- c) + (1 # 2)) * pow2 c == x + pow2 (c - 1)).
  { assert (Hh : pow2 (c - 1) == (1 # 2) * pow2 c).
    { replace (c - 1)%Z with (-1 + c)%Z by lia. rewrite pow2_add. reflexivity. }
    rewrite Hh. rewrite Qmult_plus_distr_l, <- Qmult_assoc.
    rewrite (Qmult_comm (pow2 (- c))), pow2_cancel. ring. }
  rewrite H2 in H1. exact H1.
Qed.

Lemma Qfloor_unique (x : Q) (k : Z) :
  inject_Z k <= x -> x < inject_Z (k + 1) -> Qfloor x = k.
Proof.
  intros H1 H2. pose proof (Qfloor_le x) as H3. pose proof (Qlt_floor x) as H4.
  assert (k < Qfloor x + 1)%Z by (rewrite Zlt_Qlt; lra).
  assert (Qfloor x < k + 1)%Z by (rewrite Zlt_Qlt; lra).
  lia.
Qed.

End Doubles.


Section ExactCases.

Local Open Scope Q_scope.

Lemma pow2_neg_Z (c : Z) : (c <= 0)%Z -> inject_Z (2 ^ (- c)) * pow2 c == 1.
Proof.
  intros H. rewrite <- (pow2_Z (- c)) by lia. rewrite Qmult_comm. apply pow2_cancel.
Qed.

Lemma inject_Z_pos_of_mult (n : Z) (c : Z) : 0 < inject_Z n * pow2 c -> (1 <= n)%Z.
Proof.
  intros H. destruct (Z_lt_le_dec 0 n) as [|Hle]; [lia|]. exfalso.
  assert (Hn : inject_Z n <= 0) by (change 0 with (inject_Z 0); rewrite <- Zle_Qle; exact Hle).
  pose proof (pow2_pos c) as Hc.
  assert (inject_Z n * pow2 c <= 0 * pow2 c)
    by (apply Qmult_le_compat_r; [exact Hn|apply Qlt_le_weak; exact Hc]).
  lra.
Qed.

Lemma inject_Z_nonneg_of_mult (n : Z) (c : Z) : 0 <= inject_Z n * pow2 c -> (0 <= n)%Z.
Proof.
  intros H. destruct (Z_lt_le_dec n 0) as [Hlt|]; [|lia]. exfalso.
  assert (Hn : inject_Z n <= inject_Z (-1)) by (rewrite <- Zle_Qle; lia).
  pose proof (pow2_pos c) as Hc.
  assert (inject_Z n * pow2 c <= inject_Z (-1) * pow2 c)
    by (apply Qmult_le_compat_r; [exact Hn|apply Qlt_le_weak; exact Hc]).
  change (inject_Z (-1)) with (-1 # 1) in *. lra.
Qed.

(** Taking [n] off a double [x >= n] below [2^53] is exact, for an
    integer [n >= 0]. *)
Lemma round64_sub_Z (x : Q) (n : Z) :
  round64 x == x -> (0 <= n)%Z -> inject_Z n <= x -> x < pow2 53 ->
  round64 (x - inject_Z n) == x - inject_Z n.
Proof.
  intros Hd Hn Hge Hlt.
  destruct (Z.eq_dec n 0) as [->|Hnz].
  { assert (E : x - inject_Z 0 == x) by (change (inject_Z 0) with 0; ring).
    rewrite (round64_comp _ _ E), E. exact Hd. }
  assert (Hn1 : 1 <= inject_Z n)
    by (change 1 with (inject_Z 1); rewrite <- Zle_Qle; lia).
  assert (Hx : 0 < x) by lra.
  destruct (round_pos_repr x Hx) as [[Hm0 Hm1] Hc].
  set (c := cexp x) in *. set (m := rne (x * pow2 (- c))) in *.
  assert (Hrep : x == inject_Z m * pow2 c).
  { rewrite <- Hd at 1. rewrite (round64_pos x Hx). reflexivity. }
  assert (Hc0 : (c <= 0)%Z).
  { pose proof (ilog2_lt x 53 Hx Hlt). unfold c, cexp. lia. }
  assert (Hrep' : x - inject_Z n == inject_Z (m - n * 2 ^ (- c)) * pow2 c).
  { unfold Zminus. rewrite inject_Z_plus, inject_Z_opp, inject_Z_mult.
    rewrite Qmult_plus_distr_l.
    assert (E : - (inject_Z n * inject_Z (2 ^ (- c))) * pow2 c == - inject_Z n).
    { transitivity (- inject_Z n * (inject_Z (2 ^ (- c)) * pow2 c)); [ring|].
      rewrite (pow2_neg_Z c Hc0). ring. }
    rewrite E, <- Hrep. reflexivity. }
  apply (round64_exact _ (m - n * 2 ^ (- c)) c); [exact Hrep'| |exact Hc].
  assert (H0 : (0 <= m - n * 2 ^ (- c))%Z).
  { apply (inject_Z_nonneg_of_mult _ c). rewrite <- Hrep'. lra. }
  assert (Hp : (0 < 2 ^ (- c))%Z) by (apply Z.pow_pos_nonneg; lia).
  assert (1 <= n * 2 ^ (- c))%Z by nia.
  rewrite Z.abs_eq by exact H0. lia.
Qed.

Lemma is_double_round64 (t : Qc) : is_double t -> round64 t == t.
Proof.
  intros Hd. unfold is_double in Hd. rewrite <- (fl_this t). rewrite Hd. reflexivity.
Qed.

Lemma this_minus (a b : Qc) : this (a - b)%Qc == this a - this b.
Proof.
  unfold Qcminus, Qcplus, Qcopp. cbn [this Q2Qc]. rewrite !Qred_correct. reflexivity.
Qed.

Lemma this_plus (a b : Qc) : this (a + b)%Qc == this a + this b.
Proof. unfold Qcplus. cbn [this Q2Qc]. apply Qred_correct. Qed.

Lemma this_div60 (a : Qc) : this (a / lit 60)%Qc == this a * (1 # 60).
Proof.
  unfold Qcdiv, Qcmult, Qcinv. cbn [this Q2Qc]. rewrite !Qred_correct. reflexivity.
Qed.

Lemma js_sub_lit_exact (t : Qc) (n : Z) :
  is_double t -> (0 <= n)%Z -> (lit n <= t)%Qc -> (t < lit (2 ^ 53))%Qc ->
  js_sub t (lit n) = (t - lit n)%Qc.
Proof.
  intros Hd Hn Hge Hlt. unfold js_sub. apply Qc_is_canon. rewrite fl_this.
  assert (E : this (t - lit n)%Qc == this t - inject_Z n)
    by (rewrite this_minus, this_lit'; reflexivity).
  rewrite (round64_comp _ _ E), E.
  apply round64_sub_Z; [apply is_double_round64; exact Hd|exact Hn| |].
  - unfold Qcle in Hge. rewrite this_lit' in Hge. exact Hge.
  - unfold Qclt in Hlt. rewrite this_lit' in Hlt. rewrite (pow2_Z 53) by lia. exact Hlt.
Qed.

(** The quotient by 60 of a double below [2^52], rounded to a double,
    has the floor of the exact quotient. *)
Lemma round64_div60_floor (x : Q) :
  round64 x == x -> 0 <= x -> x < pow2 52 ->
  Qfloor (round64 (x * (1 # 60))) = Qfloor (x * (1 # 60)).
Proof.
  intros Hd H0 Hlt. set (y := x * (1 # 60)). set (k := Qfloor y).
  pose proof (Qfloor_le y) as Hk1. pose proof (Qlt_floor y) as Hk2. fold k in Hk1, Hk2.
  assert (Hy0 : 0 <= y) by (unfold y; lra).
  assert (Hk0 : (0 <= k)%Z) by (unfold k; change 0%Z with (Qfloor 0); apply Qfloor_resp_le; exact Hy0).
  assert (H52 : pow2 52 == inject_Z (2 ^ 52)) by (apply pow2_Z; lia).
  assert (Hk52 : (k < 2 ^ 52)%Z) by (rewrite Zlt_Qlt; unfold y in *; lra).
  apply Qfloor_unique.
  - assert (E : round64 (inject_Z k) == inject_Z k).
    { apply (round64_exact _ k 0); [rewrite pow2_0; ring|rewrite Z.abs_eq; lia|lia]. }
    rewrite <- E. apply round64_mono. exact Hk1.
  - rewrite inject_Z_plus. change (inject_Z 1) with 1.
    destruct (Qlt_le_dec x 1) as [Hsmall|Hbig].
    + apply Qle_lt_trans with (round64 (1 # 60)).
      * apply round64_mono. unfold y. lra.
      * assert (Hc : round64 (1 # 60) < 1) by (vm_compute; reflexivity).
        assert (0 <= inject_Z k) by (change 0 with (inject_Z 0); rewrite <- Zle_Qle; exact Hk0).
        lra.
    + assert (Hx : 0 < x) by lra. assert (Hy : 0 < y) by (unfold y; lra).
      destruct (round_pos_repr x Hx) as [[Hm0 Hm1] Hc].
      set (c := cexp x) in *. set (m := rne (x * pow2 (- c))) in *.
      assert (Hrep : x == inject_Z m * pow2 c).
      { rewrite <- Hd at 1. rewrite (round64_pos x Hx). reflexivity. }
      assert (Hl0 : (0 <= ilog2 x)%Z) by (apply ilog2_ge; change (pow2 0) with 1; exact Hbig).
      assert (Hl1 : (ilog2 x < 52)%Z) by (apply ilog2_lt; assumption).
      assert (Hcn : c = (ilog2 x - 52)%Z) by (unfold c, cexp; lia).
      assert (Hc0 : (c <= 0)%Z) by lia.
      pose proof (pow2_pos c) as Hpc.
      (* the next multiple of 60 is at least one unit of x away *)
      assert (Hgap : x + pow2 c <= 60 * inject_Z (k + 1)).
      { assert (Hrep' : 60 * inject_Z (k + 1) - x
                        == inject_Z (60 * (k + 1) * 2 ^ (- c) - m) * pow2 c).
        { assert (EN : inject_Z (60 * (k + 1) * 2 ^ (- c) - m)
                       == 60 * inject_Z (k + 1) * inject_Z (2 ^ (- c)) - inject_Z m).
          { unfold Zminus.
            rewrite (inject_Z_plus (60 * (k + 1) * 2 ^ (- c)) (- m)), inject_Z_opp.
            rewrite (inject_Z_mult (60 * (k + 1)) (2 ^ (- c))).
            rewrite (inject_Z_mult 60 (k + 1)). reflexivity. }
          rewrite EN.
          transitivity (60 * inject_Z (k + 1) * (inject_Z (2 ^ (- c)) * pow2 c)
                        - inject_Z m * pow2 c); [|ring].
          rewrite (pow2_neg_Z c Hc0), <- Hrep. ring. }
        assert (Hpos : 0 < 60 * inject_Z (k + 1) - x).
        { rewrite inject_Z_plus. change (inject_Z 1) with 1. unfold y in Hk2.
          rewrite inject_Z_plus in Hk2. change (inject_Z 1) with 1 in Hk2. lra. }
        rewrite Hrep' in Hpos. apply inject_Z_pos_of_mult in Hpos.
        assert (Hone : 1 * pow2 c <= inject_Z (60 * (k + 1) * 2 ^ (- c) - m) * pow2 c).
        { apply Qmult_le_compat_r; [|apply Qlt_le_weak; exact Hpc].
          change 1 with (inject_Z 1). rewrite <- Zle_Qle. exact Hpos. }
        rewrite <- Hrep' in Hone. lra. }
      (* the quotient is rounded by at most half a unit of its own *)
      assert (Hcy : (cexp y <= c - 5)%Z).
      { assert (Hylt : y < pow2 (ilog2 x - 4)).
        { destruct (ilog2_spec x Hx) as [_ Hup].
          replace (ilog2 x - 4)%Z with ((ilog2 x + 1) + (-5))%Z by lia.
          rewrite pow2_add. change (pow2 (-5)) with (1 # 32). unfold y.
          pose proof (pow2_pos (ilog2 x + 1)). lra. }
        pose proof (ilog2_lt y _ Hy Hylt). unfold cexp. lia. }
      assert (Herr : round64 y <= y + pow2 (c - 6)).
      { rewrite (round64_pos y Hy).
        apply Qle_trans with (y + pow2 (cexp y - 1)); [apply round_pos_upper; exact Hy|].
        apply Qplus_le_r. apply pow2_le. lia. }
      assert (H6 : pow2 (c - 6) == pow2 c * (1 # 64)).
      { replace (c - 6)%Z with (c + (-6))%Z by lia. rewrite pow2_add. reflexivity. }
      rewrite H6 in Herr. rewrite inject_Z_plus in Hgap.
      change (inject_Z 1) with 1 in Hgap. unfold y in *. lra.
Qed.

Lemma floor_of_rounded_quotient (s : Qc) :
  is_double s -> (0 <= s)%Qc -> (s < lit (2 ^ 52))%Qc ->
  Qfloor (fl (s / lit 60)%Qc) = Qfloor (s / lit 60)%Qc.
Proof.
  intros Hd H0 Hlt.
  rewrite (Qfloor_comp _ _ (fl_this _)).
  rewrite (Qfloor_comp _ _ (round64_comp _ _ (this_div60 s))).
  rewrite (Qfloor_comp _ _ (this_div60 s)).
  apply round64_div60_floor; [apply is_double_round64; exact Hd|exact H0|].
  unfold Qclt in Hlt. rewrite this_lit' in Hlt. rewrite (pow2_Z 52) by lia. exact Hlt.
Qed.

End ExactCases.


(* ===================================================================== *)
(** ** Properties of formatTime                                           *)
(* ===================================================================== *)

Example formatTime_ex1 : formatTime (Num (Fin (dec 1257 10))) = "02:05".
Proof. vm_compute. reflexivity. Qed.

Example formatTime_ex2 : formatTime (Num (Fin (lit (-5)))) = "00:00".
Proof. vm_compute. reflexivity. Qed.

Example formatTime_ex3 : formatTime (Num (Fin (lit 6000))) = "100:00".
Proof. vm_compute. reflexivity. Qed.

Example formatTime_ex4 : formatTime (Num PosInf) = "Infinity:NaN".
Proof. vm_compute. reflexivity. Qed.

Example formatTime_ex5 : formatTime (Num NaN) = "00:00".
Proof. vm_compute. reflexivity. Qed.

Section FloorArithmetic.

Lemma Qfloor_div60 (q : Qc) : Qfloor (q / lit 60)%Qc = (Qfloor q / 60)%Z.
Proof.
  unfold Qcdiv, Qcmult, Qcinv.
  transitivity (Qfloor (this q * / inject_Z 60)%Q).
  - apply Qfloor_comp. simpl. rewrite !Qred_correct. reflexivity.
  - destruct q as [[n d] Hq]. simpl. unfold Qfloor. simpl.
    rewrite Z.mul_1_r, Pos2Z.inj_mul, Z.div_div by lia. reflexivity.
Qed.

Lemma Qfloor_sub60 (q : Qc) (m : Z) :
  Qfloor (q - lit 60 * Q2Qc (inject_Z m))%Qc = (Qfloor q - 60 * m)%Z.
Proof.
  transitivity (Qfloor (this q - inject_Z 60 * inject_Z m)%Q).
  - apply Qfloor_comp. unfold Qcminus, Qcplus, Qcopp, Qcmult. simpl.
    rewrite !Qred_correct. reflexivity.
  - destruct q as [[n d] Hq]. simpl. unfold Qfloor. simpl.
    rewrite !Pos.mul_1_r, Z.mul_1_r.
    rewrite Z.div_add by lia. lia.
Qed.

Lemma Qfloor_nonneg (q : Qc) : 0 <= q -> (0 <= Qfloor q)%Z.
Proof.
  intros H. change 0%Z with (Qfloor 0%Q). apply Qfloor_resp_le. exact H.
Qed.

Lemma Qfloor_below (q : Qc) (z : Z) : q < lit z -> (Qfloor q < z)%Z.
Proof.
  intros H. rewrite Zlt_Qlt.
  eapply Qle_lt_trans; [apply Qfloor_le|].
  unfold Qclt in H. unfold lit in H. simpl in H. rewrite Qred_correct in H. exact H.
Qed.

Lemma div60_nonneg (q : Qc) : 0 <= q -> 0 <= q / lit 60.
Proof.
  intros H. unfold Qcdiv.
  replace 0 with (0 * / lit 60) by ring.
  apply Qcmult_le_compat_r; [exact H|]. vm_compute. discriminate.
Qed.

End FloorArithmetic.

(** On a finite non-negative argument the clamp and the default are the
    identity. *)
Lemma clamp_nonneg (q : Qc) :
  0 <= q -> Math_max (Fin 0) (or_else (Num (Fin q)) (Fin 0)) = Fin q.
Proof.
  intros H. unfold or_else.
  destruct (Qc_eq_bool q 0) eqn:E.
  - apply Qc_eq_bool_correct in E. subst q. reflexivity.
  - unfold Math_max, num_lt. destruct (Qclt_le_dec 0 q) as [_|Hle]; [reflexivity|].
    f_equal. apply Qcle_antisym; assumption.
Qed.

Lemma clamp_negative (q : Qc) :
  q < 0 -> Math_max (Fin 0) (or_else (Num (Fin q)) (Fin 0)) = Fin 0.
Proof.
  intros H. unfold or_else.
  destruct (Qc_eq_bool q 0) eqn:E; [reflexivity|].
  unfold Math_max, num_lt. destruct (Qclt_le_dec 0 q) as [Hlt|_]; [|reflexivity].
  exfalso. apply (Qclt_not_le _ _ H). apply Qclt_le_weak. exact Hlt.
Qed.

(** Minutes and seconds of a finite non-negative argument, as integer
    division and remainder of its floor. *)
Lemma formatTime_finite (q : Qc) :
  0 <= q ->
  formatTime (Num (Fin q)) =
    padStart (pretty (Qfloor q / 60)%Z) 2 "0" +:+ ":" +:+
    padStart (pretty (Qfloor q mod 60)%Z) 2 "0".
Proof.
  intros H. unfold formatTime. rewrite (clamp_nonneg q H).
  unfold num_div, num_rem, Math_floor, String_.
  unfold Qtrunc. destruct (Qclt_le_dec (q / lit 60) 0) as [Hneg|_].
  { exfalso. apply (Qclt_not_le _ _ Hneg). apply div60_nonneg. exact H. }
  rewrite Qfloor_div60, Qfloor_sub60.
  replace (Qfloor q - 60 * (Qfloor q / 60))%Z with (Qfloor q mod 60)%Z
    by (rewrite Z.mod_eq by lia; reflexivity).
  reflexivity.
Qed.

Lemma padStart_two_digits (z : Z) :
  (0 <= z < 100)%Z -> padStart (pretty z) 2 "0" = two_digits z.
Proof.
  intros Hz.
  assert (Hall : Forall (fun z => padStart (pretty z) 2 "0" = two_digits z) (seqZ 0 100)).
  { apply (bool_decide_unpack _). vm_compute. exact I. }
  rewrite Forall_forall in Hall. apply Hall. apply elem_of_seqZ. lia.
Qed.

Lemma two_digits_MMSS (m r : Z) :
  (0 <= m < 100)%Z -> (0 <= r < 100)%Z ->
  is_MMSS (two_digits m +:+ ":" +:+ two_digits r) = true.
Proof.
  intros Hm Hr.
  assert (Hall : Forall (fun z => is_digit (ascii_of_nat (48 + Z.to_nat z)) = true) (seqZ 0 10)).
  { apply (bool_decide_unpack _). vm_compute. exact I. }
  rewrite Forall_forall in Hall.
  assert (Hd : forall z, (0 <= z < 100)%Z ->
             is_digit (ascii_of_nat (48 + Z.to_nat (z / 10))) = true /\
             is_digit (ascii_of_nat (48 + Z.to_nat (z mod 10))) = true).
  { intros z Hz. split; apply Hall; apply elem_of_seqZ.
    - split; [apply Z.div_pos; lia|]. simpl. apply Z.div_lt_upper_bound; lia.
    - pose proof (Z.mod_pos_bound z 10). lia. }
  destruct (Hd m Hm) as [Hm1 Hm2]. destruct (Hd r Hr) as [Hr1 Hr2].
  unfold two_digits. revert Hm1 Hm2 Hr1 Hr2.
  generalize (ascii_of_nat (48 + Z.to_nat (m / 10))) (ascii_of_nat (48 + Z.to_nat (m mod 10)))
             (ascii_of_nat (48 + Z.to_nat (r / 10))) (ascii_of_nat (48 + Z.to_nat (r mod 10))).
  intros a b c d Ha Hb Hc Hd'. simpl.
  rewrite Ha, Hb, Hc, Hd'. reflexivity.
Qed.

(** C2, as amended: below one hundred minutes the result is exactly
    [MM:SS], the minutes being the floor of the argument divided by sixty
    and the seconds its floor modulo sixty, each on two digits; a negative
    or a missing argument gives ["00:00"]; [125.7] gives ["02:05"] and [-5]
    gives ["00:00"]. *)
Theorem formatTime_MMSS_below_100_minutes :
  (forall q : Qc, 0 <= q -> q < lit 6000 ->
     formatTime (Num (Fin q)) =
       two_digits (Qfloor q / 60) +:+ ":" +:+ two_digits (Qfloor q mod 60)
     /\ is_MMSS (formatTime (Num (Fin q))) = true)
  /\ (forall n : Qc, n < 0 -> formatTime (Num (Fin n)) = "00:00")
  /\ formatTime (Num NegInf) = "00:00"
  /\ formatTime Undefined = "00:00"
  /\ formatTime (Num NaN) = "00:00"
  /\ formatTime (Num (Fin (dec 1257 10))) = "02:05"
  /\ formatTime (Num (Fin (lit (-5)))) = "00:00".
Proof.
  split.
  { intros q Hlo Hhi.
    pose proof (Qfloor_nonneg q Hlo) as Hf0.
    pose proof (Qfloor_below q 6000 Hhi) as Hf1.
    assert (Hm : (0 <= Qfloor q / 60 < 100)%Z).
    { split; [apply Z.div_pos; lia | apply Z.div_lt_upper_bound; lia]. }
    assert (Hr : (0 <= Qfloor q mod 60 < 100)%Z).
    { pose proof (Z.mod_pos_bound (Qfloor q) 60). lia. }
    assert (Heq : formatTime (Num (Fin q)) =
                  two_digits (Qfloor q / 60) +:+ ":" +:+ two_digits (Qfloor q mod 60)).
    { rewrite (formatTime_finite q Hlo), !padStart_two_digits by assumption. reflexivity. }
    split; [exact Heq|]. rewrite Heq. apply two_digits_MMSS; assumption. }
  split.
  { intros n Hn. unfold formatTime. rewrite (clamp_negative n Hn). vm_compute. reflexivity. }
  repeat split; vm_compute; reflexivity.
Qed.

Lemma formatTime_MMSS_below_100_minutes_witness :
  0 <= dec 1257 10 /\ dec 1257 10 < lit 6000 /\
  formatTime (Num (Fin (dec 1257 10))) = two_digits 2 +:+ ":" +:+ two_digits 5.
Proof.
  assert (Hlo : 0 <= dec 1257 10) by (vm_compute; discriminate).
  assert (Hhi : dec 1257 10 < lit 6000) by (vm_compute; reflexivity).
  split; [exact Hlo|]. split; [exact Hhi|].
  exact (proj1 (proj1 formatTime_MMSS_below_100_minutes (dec 1257 10) Hlo Hhi)).
Defined.

(** C2 as stated fails from one hundred minutes on: [6000] is not negative
    and is printed on six characters; and the non-negative [Infinity] is
    not printed as digits at all. *)
Lemma formatTime_6000_not_MMSS :
  0 <= lit 6000 /\
  formatTime (Num (Fin (lit 6000))) = "100:00" /\
  is_MMSS (formatTime (Num (Fin (lit 6000)))) = false /\
  formatTime (Num PosInf) = "Infinity:NaN".
Proof.
  split; [vm_compute; discriminate|].
  repeat split; vm_compute; reflexivity.
Qed.


Close Scope Qc_scope.
Close Scope Q_scope.

(* ===================================================================== *)
(** ** What a render pass builds                                          *)
(* ===================================================================== *)

Section RenderPass.

(** The fields [cues.forEach] leaves alone. *)
Lemma forEach_render_cue_frame (cues : list cue) : forall idx st,
  let st' := forEach render_cue cues idx st in
  scrollTop st' = scrollTop st /\ attempts st' = attempts st /\
  timer st' = timer st /\ clock st' = clock st /\
  track_mode st' = track_mode st /\ currentTime st' = currentTime st /\
  paused st' = paused st /\ log st' = log st.
Proof.
  induction cues as [|c cues IH]; intros idx st; cbn [forEach].
  - repeat split.
  - specialize (IH (S idx) (render_cue c idx st)). cbn in IH. exact IH.
Qed.

Lemma forEach_render_cue_heap (cues : list cue) : forall idx st,
  heap (forEach render_cue cues idx st) =
  heap st ++ imap (fun i c => createLine c (idx + i)) cues.
Proof.
  induction cues as [|c cues IH]; intros idx st; cbn [forEach].
  - cbn. rewrite app_nil_r. reflexivity.
  - rewrite IH. cbn [render_cue set_cueToLine set_lines set_transcript set_heap heap].
    rewrite <- app_assoc. cbn [app]. rewrite imap_cons. f_equal.
    rewrite Nat.add_0_r. f_equal. apply imap_ext. intros i x _. cbn. f_equal. lia.
Qed.

Lemma forEach_render_cue_lines (cues : list cue) : forall idx st,
  lines (forEach render_cue cues idx st) =
  lines st ++ seq (length (heap st)) (length cues).
Proof.
  induction cues as [|c cues IH]; intros idx st; cbn [forEach].
  - cbn. rewrite app_nil_r. reflexivity.
  - rewrite IH. cbn [render_cue set_cueToLine set_lines set_transcript set_heap heap lines].
    rewrite <- app_assoc, length_app. cbn [app length seq].
    rewrite Nat.add_1_r. reflexivity.
Qed.

Lemma forEach_render_cue_transcript (cues : list cue) : forall idx st,
  transcript (forEach render_cue cues idx st) =
  transcript st ++ (Elem <$> seq (length (heap st)) (length cues)).
Proof.
  induction cues as [|c cues IH]; intros idx st; cbn [forEach].
  - cbn. rewrite app_nil_r. reflexivity.
  - rewrite IH. cbn [render_cue set_cueToLine set_lines set_transcript set_heap heap transcript].
    rewrite <- app_assoc, length_app. cbn [app length seq fmap list_fmap].
    rewrite Nat.add_1_r. reflexivity.
Qed.

(** A render pass touches neither the timer nor the audio element, and
    is counted once. *)
Lemma renderFromCues_frame (e : environment) (st : state) :
  let st' := renderFromCues e st in
  scrollTop st' = scrollTop st /\ attempts st' = attempts st /\
  timer st' = timer st /\ clock st' = clock st /\
  track_mode st' = track_mode st /\ currentTime st' = currentTime st /\
  paused st' = paused st /\ log st' = Rendered :: log st.
Proof.
  unfold renderFromCues. destruct (track_cues e) as [[|c cues]|].
  1,3: cbn; repeat split.
  exact (forEach_render_cue_frame (c :: cues) 0 _).
Qed.

Lemma renders_renderFromCues (e : environment) (st : state) :
  renders (renderFromCues e st) = S (renders st).
Proof.
  unfold renders. destruct (renderFromCues_frame e st) as (_&_&_&_&_&_&_&->).
  reflexivity.
Qed.

End RenderPass.

(* ===================================================================== *)
(** ** The polling loop                                                   *)
(* ===================================================================== *)

Section Polling.

Variable world : nat -> environment.

Lemma poll_stopped (n : nat) (st : state) :
  timer st = None -> poll world n st = st.
Proof. intros H. destruct n; cbn; [reflexivity|]. rewrite H. reflexivity. Qed.

(** A tick that neither sees cues nor is the last one only counts. *)
Lemma tick_waits (e : environment) (st : state) :
  has_cues e = false -> S (attempts st) < maxAttempts ->
  tick e st = set_attempts S st.
Proof.
  intros Hc Ha. unfold tick. rewrite Hc. cbn [attempts set_attempts].
  destruct (Nat.leb_spec maxAttempts (S (attempts st))); [lia|reflexivity].
Qed.

(** A tick that sees cues, or is the last one, clears the timer and
    renders. *)
Lemma tick_renders (e : environment) (st : state) :
  has_cues e = true \/ maxAttempts <= S (attempts st) ->
  tick e st = renderFromCues e (clearInterval (set_attempts S st)).
Proof.
  intros H. unfold tick. destruct (has_cues e); [reflexivity|].
  destruct H as [H|H]; [discriminate|]. cbn [attempts set_attempts].
  destruct (Nat.leb_spec maxAttempts (S (attempts st))); [reflexivity|lia].
Qed.

Lemma waited_here (d : nat) (st : state) :
  clock st = d * attempts st -> waited d (attempts st) st = st.
Proof. intros H. destruct st. cbn in *. subst. reflexivity. Qed.

Lemma waited_step (d a : nat) (st : state) :
  attempts st = a -> clock st = d * a ->
  set_attempts S (set_clock (fun t => t + d) st) = waited d (S a) st.
Proof.
  intros <- Hc. unfold waited, set_attempts, set_clock. cbn. rewrite Hc.
  f_equal. lia.
Qed.

Lemma timer_polled (d k : nat) (st : state) : timer (polled world d k st) = None.
Proof.
  unfold polled.
  destruct (renderFromCues_frame (world (d * k)) (clearInterval (waited d k st)))
    as (_&_&->&_). reflexivity.
Qed.

(** The loop from [a] attempts on, with [S r] attempts left. *)
Lemma poll_from (d r : nat) : forall (st : state) (a : nat),
  timer st = Some d -> attempts st = a -> clock st = d * a ->
  a + S r = maxAttempts ->
  exists k,
    a < k <= maxAttempts /\
    (has_cues (world (d * k)) = true \/ k = maxAttempts) /\
    (forall j, a < j < k -> has_cues (world (d * j)) = false) /\
    (forall n, a + n < k -> poll world n st = waited d (a + n) st) /\
    (forall n, k <= a + n -> poll world n st = polled world d k st).
Proof.
  induction r as [|r IH]; intros st a Ht Ha Hc Hr.
  - (* the last attempt *)
    exists (S a). split; [lia|]. split; [right; lia|]. split; [intros j Hj; lia|].
    split.
    + intros n Hn. assert (n = 0) as -> by lia. cbn [poll].
      rewrite Nat.add_0_r. subst a. symmetry. apply waited_here. exact Hc.
    + intros [|n] Hn; [lia|]. cbn [poll]. rewrite Ht.
      rewrite tick_renders by (right; cbn; lia).
      assert (Hw : clock st + d = d * S a) by lia. rewrite Hw.
      rewrite (waited_step d a st Ha Hc).
      apply poll_stopped, timer_polled.
  - destruct (has_cues (world (d * S a))) eqn:Hcue.
    + (* cues are there at the next tick *)
      exists (S a). split; [lia|]. split; [left; exact Hcue|].
      split; [intros j Hj; lia|]. split.
      * intros n Hn. assert (n = 0) as -> by lia. cbn [poll].
        rewrite Nat.add_0_r. subst a. symmetry. apply waited_here. exact Hc.
      * intros [|n] Hn; [lia|]. cbn [poll]. rewrite Ht.
        assert (Hw : clock st + d = d * S a) by lia. rewrite Hw.
        rewrite tick_renders by (left; exact Hcue).
        rewrite (waited_step d a st Ha Hc).
        apply poll_stopped, timer_polled.
    + (* nothing yet: count and go on *)
      set (st1 := set_attempts S (set_clock (fun t => t + d) st)).
      assert (Hstep : forall n, poll world (S n) st = poll world n st1).
      { intros n. cbn [poll]. rewrite Ht.
        assert (Hw : clock st + d = d * S a) by lia. rewrite Hw.
        rewrite tick_waits; [reflexivity|exact Hcue|cbn; lia]. }
      assert (Hsame : forall i, waited d i st1 = waited d i st) by reflexivity.
      assert (Hsame' : forall i, polled world d i st1 = polled world d i st) by reflexivity.
      destruct (IH st1 (S a)) as (k & Hk & Hlast & Hnone & Hwait & Hdone).
      { exact Ht. } { cbn. lia. } { cbn. lia. } { lia. }
      exists k. split; [lia|]. split; [exact Hlast|]. split.
      { intros j Hj. destruct (decide (j = S a)) as [->|]; [exact Hcue|].
        apply Hnone. lia. }
      split.
      * intros [|n] Hn.
        -- cbn [poll]. rewrite Nat.add_0_r. subst a. symmetry. apply waited_here. exact Hc.
        -- rewrite Hstep, Hwait, Hsame by lia. f_equal. lia.
      * intros [|n] Hn; [lia|]. rewrite Hstep, Hdone, Hsame' by lia. reflexivity.
Qed.

End Polling.

Lemma setupCard_installed (c : card) (st0 : state) :
  setupCard c = Installed st0 ->
  heap st0 = [] /\ lines st0 = [] /\ cueToLine st0 = ∅ /\ attempts st0 = 0 /\
  timer st0 = Some interval_ms /\ clock st0 = 0 /\ log st0 = [] /\
  rendered_lines st0 = [].
Proof.
  unfold setupCard.
  destruct (audio c) as [a|]; [|discriminate].
  destruct (transcriptEl c) as [t|]; [|discriminate].
  destruct (textTracks a); [discriminate|].
  intros [= <-]. cbn. repeat split.
  unfold rendered_lines. cbn. induction (container_markup t); [reflexivity|assumption].
Qed.

(** The loop of an installed card, in closed form: it waits up to some
    tick [k], the first that finds cues or else the twentieth, renders
    there, and stays as that tick left it. *)
Lemma polling_outcome (c : card) (st0 : state) (world : nat -> environment) :
  setupCard c = Installed st0 ->
  exists k,
    1 <= k <= 20 /\
    (has_cues (world (150 * k)) = true \/ k = 20) /\
    (forall j, 1 <= j < k -> has_cues (world (150 * j)) = false) /\
    (forall n, n < k -> poll world n st0 = waited 150 n st0) /\
    (forall n, k <= n -> poll world n st0 = polled world 150 k st0).
Proof.
  intros Hs. destruct (setupCard_installed c st0 Hs) as (_&_&_&Ha&Ht&Hc&_).
  destruct (poll_from world interval_ms 19 st0 0 Ht Ha) as (k & Hk & Hlast & Hnone & Hwait & Hdone).
  { rewrite Hc. lia. } { reflexivity. }
  change interval_ms with 150 in *. change maxAttempts with 20 in *.
  exists k. split; [lia|]. split; [exact Hlast|]. split; [intros j Hj; apply Hnone; lia|].
  split; intros n Hn; [apply Hwait|apply Hdone]; lia.
Qed.

(** C3: for a card with a caption track the timer is set to 150 ms; the
    callback runs at the multiples of 150 ms and at most 20 times; the
    render pass happens exactly once, at tick [k], which is the first tick
    that finds cues or else the twentieth; from that tick on the timer is
    cleared and nothing more happens. *)
Theorem polling_renders_exactly_once (c : card) (st0 : state) (world : nat -> environment) :
  setupCard c = Installed st0 ->
  timer st0 = Some 150 /\
  exists k,
    1 <= k <= 20 /\
    (has_cues (world (150 * k)) = true \/ k = 20) /\
    (forall j, 1 <= j < k -> has_cues (world (150 * j)) = false) /\
    (forall n, n < k ->
       timer (poll world n st0) = Some 150 /\ renders (poll world n st0) = 0 /\
       attempts (poll world n st0) = n /\ clock (poll world n st0) = 150 * n) /\
    (forall n, k <= n ->
       timer (poll world n st0) = None /\ renders (poll world n st0) = 1 /\
       attempts (poll world n st0) = k /\ clock (poll world n st0) = 150 * k).
Proof.
  intros Hs. destruct (setupCard_installed c st0 Hs) as (_&_&_&_&Ht&_&Hl&_).
  split; [exact Ht|].
  destruct (polling_outcome c st0 world Hs) as (k & Hk & Hlast & Hnone & Hwait & Hdone).
  exists k. split; [exact Hk|]. split; [exact Hlast|]. split; [exact Hnone|].
  split.
  - intros n Hn. rewrite Hwait by lia. unfold renders. cbn. rewrite Ht, Hl. repeat split.
  - intros n Hn. rewrite Hdone by lia. unfold renders, polled.
    destruct (renderFromCues_frame (world (150 * k)) (clearInterval (waited 150 k st0)))
      as (_&->&->&->&_&_&_&->).
    cbn. rewrite Hl. repeat split.
Qed.

Lemma polling_renders_exactly_once_witness :
  setupCard demo_card = Installed (installed demo_player demo_container) /\
  timer (installed demo_player demo_container) = Some 150.
Proof.
  split; [reflexivity|].
  exact (proj1 (polling_renders_exactly_once demo_card
                  (installed demo_player demo_container) (fun _ => idle) eq_refl)).
Defined.


(* ===================================================================== *)
(** ** Rendering as a projection of the cue list                          *)
(* ===================================================================== *)

Section Projection.

Lemma omap_Elem (l : list nat) :
  omap (fun n => match n with Elem a => Some a | Html _ => None end) (Elem <$> l) = l.
Proof. induction l as [|a l IH]; cbn; [reflexivity|]. rewrite IH. reflexivity. Qed.

(** Reading back freshly allocated elements through their addresses. *)
Lemma omap_lookup_fresh (new : list element) : forall old : list element,
  omap (fun a => (old ++ new) !! a) (seq (length old) (length new)) = new.
Proof.
  induction new as [|x new IH]; intros old; cbn [length seq omap list_omap].
  - reflexivity.
  - rewrite lookup_app_r by lia. rewrite Nat.sub_diag. cbn [lookup list_lookup].
    f_equal.
    specialize (IH (old ++ [x])). rewrite length_app, <- app_assoc in IH.
    cbn [length app] in IH. rewrite Nat.add_1_r in IH. exact IH.
Qed.

Variables (e : environment) (cues : list cue).
Hypothesis Hcues : track_cues e = Some cues.
Hypothesis Hne : cues <> [].

Lemma renderFromCues_built (st : state) :
  heap (renderFromCues e st) = heap st ++ imap (fun i c => createLine c i) cues /\
  lines (renderFromCues e st) = seq (length (heap st)) (length cues) /\
  transcript (renderFromCues e st) = Elem <$> seq (length (heap st)) (length cues).
Proof.
  unfold renderFromCues. rewrite Hcues. destruct cues as [|c cs]; [congruence|].
  rewrite forEach_render_cue_heap, forEach_render_cue_lines, forEach_render_cue_transcript.
  cbn [heap lines transcript set_cueToLine set_lines set_transcript record app].
  repeat split.
Qed.

Lemma rendered_lines_renderFromCues (st : state) :
  rendered_lines (renderFromCues e st) = seq (length (heap st)) (length cues).
Proof.
  unfold rendered_lines. destruct (renderFromCues_built st) as (_ & _ & ->).
  apply omap_Elem.
Qed.

Lemma rendered_elements_renderFromCues (st : state) :
  rendered_elements (renderFromCues e st) = imap (fun i c => createLine c i) cues.
Proof.
  unfold rendered_elements. rewrite rendered_lines_renderFromCues.
  destruct (renderFromCues_built st) as (-> & _ & _).
  rewrite <- (length_imap (fun i c => createLine c i) cues) at 1.
  apply omap_lookup_fresh.
Qed.

End Projection.

(** C5: a render pass over a non-empty cue list shows exactly one line per
    cue, in cue order, each with the cue's formatted start time and its
    text as it is; what it shows depends on the cue list alone, so a second
    pass over the same list, from the state the first one left or from any
    other, shows the same lines. *)
Theorem render_is_projection_of_cues
    (e : environment) (cues : list cue) (st other : state) :
  track_cues e = Some cues -> cues <> [] ->
  rendered_elements (renderFromCues e st) = imap (fun idx c => createLine c idx) cues
  /\ transcript (renderFromCues e st) = Elem <$> rendered_lines (renderFromCues e st)
  /\ length (rendered_lines (renderFromCues e st)) = length cues
  /\ length (rendered_elements (renderFromCues e st)) = length cues
  /\ (forall i c, cues !! i = Some c ->
        exists el, rendered_elements (renderFromCues e st) !! i = Some el /\
                   time_text el = formatTime (Num (Fin (startTime c))) /\
                   body_text el = text c /\ jump_cue el = c)
  /\ rendered_elements (renderFromCues e (renderFromCues e st))
       = rendered_elements (renderFromCues e st)
  /\ rendered_elements (renderFromCues e other)
       = rendered_elements (renderFromCues e st).
Proof.
  intros Hcues Hne.
  rewrite !(rendered_elements_renderFromCues e cues Hcues Hne).
  rewrite (rendered_lines_renderFromCues e cues Hcues Hne).
  destruct (renderFromCues_built e cues Hcues Hne st) as (_ & _ & Ht).
  split; [reflexivity|]. split; [exact Ht|].
  split; [apply length_seq|]. split; [apply length_imap|].
  split; [|split; reflexivity].
  intros i c Hi. exists (createLine c i). split.
  - rewrite list_lookup_imap, Hi. reflexivity.
  - repeat split.
Qed.

Lemma render_is_projection_of_cues_witness :
  track_cues (loaded []) = Some [hello; world_cue] /\
  [hello; world_cue] <> [] /\
  rendered_elements (renderFromCues (loaded []) highlighted) =
    [createLine hello 0; createLine world_cue 1].
Proof.
  assert (Hne : [hello; world_cue] <> []) by discriminate.
  split; [reflexivity|]. split; [exact Hne|].
  exact (proj1 (render_is_projection_of_cues (loaded []) [hello; world_cue]
                  highlighted highlighted eq_refl Hne)).
Defined.


(* ===================================================================== *)
(** ** The active marking                                                 *)
(* ===================================================================== *)

Section ActiveMarking.

Lemma not_active_classList_remove (el : element) :
  "active" ∉ classList (classList_remove "active" el).
Proof.
  unfold classList_remove. cbn [classList]. intros H.
  apply list_elem_of_filter in H. destruct H as [H _]. apply H. reflexivity.
Qed.

Lemma active_classList_add (el : element) :
  "active" ∈ classList (classList_add "active" el).
Proof.
  unfold classList_add. cbn [classList]. case_decide; [assumption|].
  apply elem_of_app. right. apply list_elem_of_singleton. reflexivity.
Qed.

(** [lines.forEach] over addresses other than [a] leaves [a] alone. *)
Lemma foldl_alter_other (f : element -> element) (ls : list nat) (a : nat) :
  a ∉ ls -> forall h : list element,
  foldl (fun h l => alter f l h) h ls !! a = h !! a.
Proof.
  induction ls as [|l ls IH]; intros Hn h; cbn [foldl]; [reflexivity|].
  rewrite not_elem_of_cons in Hn. destruct Hn as [Hne Hn].
  rewrite IH by assumption. apply list_lookup_alter_ne. congruence.
Qed.

Lemma clearActive_clears (st : state) (a : nat) :
  a ∈ lines st -> is_active (clearActive st) a = false.
Proof.
  unfold is_active, clearActive. cbn [heap set_heap].
  generalize (heap st). induction (lines st) as [|l ls IH]; intros h Hin.
  - apply elem_of_nil in Hin. contradiction.
  - cbn [foldl]. destruct (decide (a ∈ ls)) as [Hls|Hls]; [apply IH; assumption|].
    apply elem_of_cons in Hin. destruct Hin as [->|]; [|contradiction].
    rewrite foldl_alter_other by assumption.
    rewrite list_lookup_alter_eq. destruct (h !! l) as [el|]; cbn; [|reflexivity].
    apply bool_decide_eq_false. apply not_active_classList_remove.
Qed.

Lemma clearActive_frame (st : state) :
  transcript (clearActive st) = transcript st /\ lines (clearActive st) = lines st /\
  cueToLine (clearActive st) = cueToLine st /\ scrollTop (clearActive st) = scrollTop st /\
  timer (clearActive st) = timer st /\ log (clearActive st) = log st.
Proof. repeat split. Qed.

(** What [setActiveCue] does to the heap, whatever the scrolling. *)
Lemma setActiveCue_heap (e : environment) (c : cue) (st : state) :
  heap (setActiveCue e (Some c) st) =
  match cueToLine st !! cue_id c with
  | Some line => alter (classList_add "active") line (heap (clearActive st))
  | None => heap (clearActive st)
  end.
Proof.
  unfold setActiveCue. cbn [cueToLine clearActive set_heap].
  destruct (cueToLine st !! cue_id c) as [line|]; [|reflexivity].
  destruct (doScroll e); [|reflexivity].
  destruct (Qclt_le_dec _ _); [reflexivity|].
  destruct (Qclt_le_dec _ _); reflexivity.
Qed.

Lemma setActiveCue_frame (e : environment) (c : option cue) (st : state) :
  transcript (setActiveCue e c st) = transcript st /\
  lines (setActiveCue e c st) = lines st /\
  cueToLine (setActiveCue e c st) = cueToLine st /\
  timer (setActiveCue e c st) = timer st /\
  log (setActiveCue e c st) = log st /\
  attempts (setActiveCue e c st) = attempts st /\
  currentTime (setActiveCue e c st) = currentTime st.
Proof.
  unfold setActiveCue. destruct c as [c|]; [|repeat split].
  cbn [cueToLine clearActive set_heap].
  destruct (cueToLine st !! cue_id c) as [line|]; [|repeat split].
  destruct (doScroll e); [|repeat split].
  destruct (Qclt_le_dec _ _); [repeat split|].
  destruct (Qclt_le_dec _ _); repeat split.
Qed.

(** A duplicate-free list whose members all equal [x] has at most one. *)
Lemma NoDup_all_equal (l : list nat) (x : nat) :
  NoDup l -> (forall y, y ∈ l -> y = x) -> length l <= 1.
Proof.
  intros Hnd Hall. destruct l as [|a [|b l]]; cbn; [lia|lia|].
  exfalso. apply NoDup_cons in Hnd. destruct Hnd as [Hnotin _].
  apply Hnotin. rewrite (Hall a), (Hall b).
  - apply elem_of_cons. left. reflexivity.
  - apply elem_of_cons. right. apply elem_of_cons. left. reflexivity.
  - apply elem_of_cons. left. reflexivity.
Qed.

Lemma active_lines_setActiveCue (e : environment) (c : option cue) (st : state) :
  consistent st -> length (active_lines st) <= 1 ->
  length (active_lines (setActiveCue e c st)) <= 1.
Proof.
  intros [Hr Hnd] Hone. destruct c as [c|]; [|exact Hone].
  destruct (setActiveCue_frame e (Some c) st) as (Ht & _).
  apply (NoDup_all_equal _ (default 0 (cueToLine st !! cue_id c))).
  - unfold active_lines. apply NoDup_filter. unfold rendered_lines.
    rewrite Ht. fold (rendered_lines st). rewrite Hr. exact Hnd.
  - intros a Ha. unfold active_lines in Ha. apply list_elem_of_filter in Ha.
    destruct Ha as [Hact Hin]. unfold rendered_lines in Hin. rewrite Ht in Hin.
    fold (rendered_lines st) in Hin. rewrite Hr in Hin.
    pose proof (clearActive_clears st a Hin) as Hclr.
    unfold is_active in Hact, Hclr. rewrite setActiveCue_heap in Hact.
    destruct (cueToLine st !! cue_id c) as [line|]; cbn [default].
    + destruct (decide (a = line)) as [|Hne]; [assumption|]. exfalso.
      rewrite list_lookup_alter_ne in Hact by congruence.
      rewrite Hclr in Hact. discriminate.
    + rewrite Hclr in Hact. discriminate.
Qed.

End ActiveMarking.


(* ===================================================================== *)
(** ** Every reachable state is consistent                                *)
(* ===================================================================== *)

Section Reachable.

Lemma filter_none {A : Type} (P : A -> Prop) `{!forall x, Decision (P x)} (l : list A) :
  (forall x, x ∈ l -> ~ P x) -> filter P l = [].
Proof.
  intros Hno. destruct (filter P l) as [|x k] eqn:E; [reflexivity|]. exfalso.
  assert (Hx : x ∈ filter P l) by (rewrite E; apply elem_of_cons; left; reflexivity).
  apply list_elem_of_filter in Hx. destruct Hx as [HP Hin]. exact (Hno x Hin HP).
Qed.

(** [consistent] and the active lines only look at three fields. *)
Lemma consistent_ext (st st' : state) :
  transcript st' = transcript st -> lines st' = lines st ->
  consistent st -> consistent st'.
Proof.
  unfold consistent, rendered_lines. intros -> ->. exact id.
Qed.

Lemma active_lines_ext (st st' : state) :
  heap st' = heap st -> transcript st' = transcript st ->
  active_lines st' = active_lines st.
Proof.
  unfold active_lines, rendered_lines, is_active. intros -> ->. reflexivity.
Qed.

Lemma renderFromCues_fresh (e : environment) (st : state) :
  consistent (renderFromCues e st) /\ active_lines (renderFromCues e st) = [].
Proof.
  destruct (track_cues e) as [[|c cs]|] eqn:Hc.
  1,3: unfold renderFromCues; rewrite Hc; cbn; repeat split; apply NoDup_nil_2.
  assert (Hne : c :: cs <> []) by discriminate.
  destruct (renderFromCues_built e (c :: cs) Hc Hne st) as (Hh & Hl & Ht).
  pose proof (rendered_lines_renderFromCues e (c :: cs) Hc Hne st) as Hr.
  split.
  - split; [rewrite Hr, Hl; reflexivity|]. rewrite Hl. apply NoDup_seq.
  - unfold active_lines. apply filter_none. intros a Ha. rewrite Hr in Ha.
    apply elem_of_seq in Ha. unfold is_active. rewrite Hh.
    rewrite lookup_app_r by lia. rewrite list_lookup_imap.
    destruct ((c :: cs) !! (a - length (heap st))) as [c'|]; cbn; [|discriminate].
    rewrite bool_decide_eq_false_2; [discriminate|].
    intros Hin. apply list_elem_of_singleton in Hin. discriminate.
Qed.

Lemma tick_cases (e : environment) (st : state) :
  tick e st = set_attempts S st \/
  tick e st = renderFromCues e (clearInterval (set_attempts S st)).
Proof.
  unfold tick. destruct (has_cues e); [right; reflexivity|].
  destruct (_ <=? _)%nat; [right|left]; reflexivity.
Qed.

Lemma jump_frame (e : environment) (c : cue) (st : state) :
  heap (jump e c st) = heap st /\ transcript (jump e c st) = transcript st /\
  lines (jump e c st) = lines st /\ timer (jump e c st) = timer st /\
  log (jump e c st) = log st /\ scrollTop (jump e c st) = scrollTop st.
Proof.
  unfold jump, audio_play. destruct (play_result e); cbn; repeat split.
Qed.

Lemma on_line_keydown_frame (e : environment) (c : cue) (key : string) (st : state) :
  heap (on_line_keydown e c key st) = heap st /\
  transcript (on_line_keydown e c key st) = transcript st /\
  lines (on_line_keydown e c key st) = lines st /\
  timer (on_line_keydown e c key st) = timer st /\
  renders (on_line_keydown e c key st) = renders st.
Proof.
  unfold on_line_keydown. destruct (_ || _)%bool; [|repeat split].
  destruct (jump_frame e c (record DefaultPrevented st)) as (-> & -> & -> & -> & Hl & _).
  unfold renders. rewrite Hl. cbn. repeat split.
Qed.

Lemma assign_currentTime_frame (n : number) (st : state) :
  heap (assign_currentTime n st) = heap st /\
  transcript (assign_currentTime n st) = transcript st /\
  lines (assign_currentTime n st) = lines st /\
  timer (assign_currentTime n st) = timer st /\
  renders (assign_currentTime n st) = renders st.
Proof. destruct n; cbn; repeat split. Qed.

Lemma on_button_click_frame (e : environment) (action : string) (st : state) :
  heap (on_button_click e action st) = heap st /\
  transcript (on_button_click e action st) = transcript st /\
  lines (on_button_click e action st) = lines st /\
  timer (on_button_click e action st) = timer st /\
  renders (on_button_click e action st) = renders st.
Proof.
  unfold on_button_click.
  set (st1 := if String.eqb action "jump-back" then _ else st).
  assert (H1 : heap st1 = heap st /\ transcript st1 = transcript st /\
               lines st1 = lines st /\ timer st1 = timer st /\ renders st1 = renders st).
  { subst st1. destruct (String.eqb action "jump-back");
      [apply assign_currentTime_frame|repeat split]. }
  destruct H1 as (H1 & H2 & H3 & H4 & H5).
  destruct (String.eqb action "jump-forward"); [|repeat split; assumption].
  destruct (assign_currentTime_frame
              (Math_min (or_else (Num (duration e)) PosInf)
                        (Fin (js_add (currentTime st1) (lit 5)))) st1)
    as (-> & -> & -> & -> & ->).
  repeat split; assumption.
Qed.

(** One event keeps the state consistent and the marking single. *)
Lemma step_preserves (e : environment) (ev : event) (st : state) :
  consistent st -> length (active_lines st) <= 1 ->
  consistent (step e ev st) /\ length (active_lines (step e ev st)) <= 1.
Proof.
  intros Hc Hone. destruct ev as [| |target|target key|action]; cbn [step].
  - destruct (timer st) as [d|]; [|split; assumption].
    destruct (tick_cases e (set_clock (fun t => t + d) st)) as [-> | ->].
    + split; [exact (consistent_ext st _ eq_refl eq_refl Hc)|].
      rewrite (active_lines_ext st (set_attempts S (set_clock (fun t => t + d) st))
                 eq_refl eq_refl).
      exact Hone.
    + destruct (renderFromCues_fresh e
                  (clearInterval (set_attempts S (set_clock (fun t => t + d) st))))
        as [H1 H2].
      split; [exact H1|]. rewrite H2. cbn. lia.
  - unfold on_cuechange. split.
    + destruct (setActiveCue_frame e
                  match activeCues e with Some (c :: _) => Some c | _ => None end st)
        as (Ht & Hl & _).
      exact (consistent_ext st _ Ht Hl Hc).
    + apply active_lines_setActiveCue; assumption.
  - destruct (heap st !! target) as [el|]; [|split; assumption].
    unfold on_line_click. destruct (jump_frame e (jump_cue el) st) as (Hh & Ht & Hl & _).
    split; [exact (consistent_ext st _ Ht Hl Hc)|].
    rewrite (active_lines_ext st _ Hh Ht). exact Hone.
  - destruct (heap st !! target) as [el|]; [|split; assumption].
    destruct (on_line_keydown_frame e (jump_cue el) key st) as (Hh & Ht & Hl & _).
    split; [exact (consistent_ext st _ Ht Hl Hc)|].
    rewrite (active_lines_ext st _ Hh Ht). exact Hone.
  - destruct (on_button_click_frame e action st) as (Hh & Ht & Hl & _).
    split; [exact (consistent_ext st _ Ht Hl Hc)|].
    rewrite (active_lines_ext st _ Hh Ht). exact Hone.
Qed.

Lemma run_preserves (evs : list (environment * event)) : forall st : state,
  consistent st -> length (active_lines st) <= 1 ->
  consistent (run evs st) /\ length (active_lines (run evs st)) <= 1.
Proof.
  induction evs as [|[e ev] evs IH]; intros st Hc Hone; cbn [run].
  - split; assumption.
  - destruct (step_preserves e ev st Hc Hone) as [Hc' Hone']. apply IH; assumption.
Qed.

End Reachable.

(** C4: whatever events an installed card receives (timer ticks with their
    render passes, cue changes, clicks, keys, buttons), in whatever order,
    at most one of the lines its container shows carries the active
    marking. *)
Theorem at_most_one_active_line
    (c : card) (st0 : state) (evs : list (environment * event)) :
  setupCard c = Installed st0 ->
  length (active_lines (run evs st0)) <= 1.
Proof.
  intros Hs. destruct (setupCard_installed c st0 Hs) as (_ & Hl & _ & _ & _ & _ & _ & Hr).
  apply run_preserves.
  - split; [rewrite Hr, Hl; reflexivity|]. rewrite Hl. apply NoDup_nil_2.
  - unfold active_lines. rewrite Hr. cbn. lia.
Qed.

Lemma at_most_one_active_line_witness :
  setupCard demo_card = Installed (installed demo_player demo_container) /\
  length (active_lines
            (run [(loaded [], TimerFired); (loaded [hello], CueChange);
                  (loaded [world_cue], CueChange)]
                 (installed demo_player demo_container))) <= 1.
Proof.
  split; [reflexivity|].
  apply (at_most_one_active_line demo_card). reflexivity.
Defined.


(* ===================================================================== *)
(** ** Cue changes: highlight and scrolling                               *)
(* ===================================================================== *)

(** C1, as amended: a cue change that brings no active cue leaves the
    whole state as it was; the marking of the lines stays what it was and
    the scroll offset is not touched. *)
Theorem cuechange_without_cues_changes_nothing (e : environment) (st : state) :
  activeCues e = None \/ activeCues e = Some [] ->
  step e CueChange st = st
  /\ active_lines (step e CueChange st) = active_lines st
  /\ scrollTop (step e CueChange st) = scrollTop st.
Proof.
  intros H. assert (Hst : step e CueChange st = st).
  { cbn [step]. unfold on_cuechange. destruct H as [-> | ->]; reflexivity. }
  rewrite Hst. repeat split.
Qed.

Lemma cuechange_without_cues_changes_nothing_witness :
  activeCues (loaded []) = Some [] /\
  step (loaded []) CueChange highlighted = highlighted.
Proof.
  split; [reflexivity|].
  exact (proj1 (cuechange_without_cues_changes_nothing (loaded []) highlighted
                  (or_intror eq_refl))).
Defined.

(** C1 as stated fails: the line of the first cue is marked, a cue change
    with no active cue arrives, and the line is still marked. *)
Lemma cuechange_without_cues_keeps_highlight :
  activeCues (loaded []) = Some [] /\
  active_lines highlighted = [0] /\
  active_lines (step (loaded []) CueChange highlighted) = [0] /\
  active_lines (step (loaded []) CueChange highlighted) <> [].
Proof.
  split; [reflexivity|]. split; [vm_compute; reflexivity|].
  split; [vm_compute; reflexivity|]. vm_compute. discriminate.
Qed.

Section Scrolling.

Local Open Scope Qc_scope.

Lemma doScroll_true (e : environment) :
  doScroll e = true <-> details e = Some true /\ autoScrollCheckbox e = Some true.
Proof.
  unfold doScroll. destruct (details e) as [[|]|], (autoScrollCheckbox e) as [[|]|];
    split; try discriminate; try (intros [? ?]; discriminate); auto.
Qed.

Lemma setActiveCue_no_scroll (e : environment) (c : option cue) (st : state) :
  doScroll e = false -> scrollTop (setActiveCue e c st) = scrollTop st.
Proof.
  intros Hd. unfold setActiveCue. destruct c as [c|]; [|reflexivity].
  cbn [cueToLine clearActive set_heap].
  destruct (cueToLine st !! cue_id c); [|reflexivity]. rewrite Hd. reflexivity.
Qed.

Lemma length_foldl_alter (f : element -> element) (ls : list nat) :
  forall h : list element, length (foldl (fun h l => alter f l h) h ls) = length h.
Proof.
  induction ls as [|l ls IH]; intros h; cbn [foldl]; [reflexivity|].
  rewrite IH. apply length_alter.
Qed.

Lemma setActiveCue_marks (e : environment) (c : cue) (st : state) (line : nat) :
  cueToLine st !! cue_id c = Some line -> (line < length (heap st))%nat ->
  is_active (setActiveCue e (Some c) st) line = true.
Proof.
  intros Hl Hlt. unfold is_active. rewrite setActiveCue_heap, Hl.
  rewrite list_lookup_alter_eq.
  destruct (heap (clearActive st) !! line) as [el|] eqn:E.
  - cbn. apply bool_decide_eq_true. apply active_classList_add.
  - exfalso. apply lookup_ge_None in E. unfold clearActive in E. cbn in E.
    rewrite length_foldl_alter in E. lia.
Qed.

Lemma Qc_sub_neg (a b : Qc) : a < b -> a - b < 0.
Proof.
  intros H. apply Qclt_minus_iff. apply Qclt_minus_iff in H.
  replace (0 + - (a - b)) with (b + - a) by ring. exact H.
Qed.

Lemma Qc_sub_pos (a b : Qc) : b < a -> 0 < a - b.
Proof.
  intros H. apply Qclt_minus_iff in H. exact H.
Qed.

End Scrolling.



(* ===================================================================== *)
(** ** What the container shows, in every reachable state                 *)
(* ===================================================================== *)

Section Shown.

Lemma forEach_cueToLine_Some (cues : list cue) : forall idx st k a,
  cueToLine (forEach render_cue cues idx st) !! k = Some a ->
  cueToLine st !! k = Some a \/
  exists i c, cues !! i = Some c /\ cue_id c = k /\ a = length (heap st) + i.
Proof.
  induction cues as [|c cues IH]; intros idx st k a H; cbn [forEach] in H.
  - left. exact H.
  - apply IH in H. destruct H as [H | (i & c' & Hi & Hk & Ha)].
    + cbn [render_cue set_cueToLine set_lines set_transcript set_heap cueToLine heap] in H.
      destruct (decide (cue_id c = k)) as [Heq|Hne].
      * subst k. rewrite lookup_insert_eq in H. injection H as <-.
        right. exists 0, c. rewrite Nat.add_0_r. repeat split.
      * rewrite lookup_insert_ne in H by assumption. left. exact H.
    + right. exists (S i), c'. split; [exact Hi|]. split; [exact Hk|].
      cbn [render_cue set_cueToLine set_lines set_transcript set_heap heap] in Ha.
      rewrite length_app in Ha. cbn in Ha. lia.
Qed.

Lemma forEach_cueToLine_is_Some (cues : list cue) : forall idx st k,
  is_Some (cueToLine st !! k) \/ (exists i c, cues !! i = Some c /\ cue_id c = k) ->
  is_Some (cueToLine (forEach render_cue cues idx st) !! k).
Proof.
  induction cues as [|c cues IH]; intros idx st k H; cbn [forEach].
  - destruct H as [H | (i & c' & Hi & _)]; [exact H|]. discriminate.
  - apply IH.
    cbn [render_cue set_cueToLine set_lines set_transcript set_heap cueToLine].
    destruct (decide (cue_id c = k)) as [Heq|Hne].
    + left. subst k. rewrite lookup_insert_eq. eexists. reflexivity.
    + destruct H as [H | (i & c' & Hi & Hk)].
      * left. rewrite lookup_insert_ne by assumption. exact H.
      * destruct i as [|i]; cbn in Hi.
        -- injection Hi as ->. contradiction.
        -- right. exists i, c'. split; assumption.
Qed.

Lemma line_of_createLine (c : cue) (idx : nat) : line_of (createLine c idx) c idx.
Proof. unfold line_of. cbn. repeat split. left. reflexivity. Qed.

Lemma line_of_remove (el : element) (c : cue) (idx : nat) :
  line_of el c idx -> line_of (classList_remove "active" el) c idx.
Proof.
  intros (H1 & H2 & H3 & H4 & H5). unfold line_of, classList_remove. cbn.
  repeat split; try assumption. left. destruct H5 as [-> | ->]; reflexivity.
Qed.

Lemma line_of_add (el : element) (c : cue) (idx : nat) :
  line_of el c idx -> line_of (classList_add "active" el) c idx.
Proof.
  intros (H1 & H2 & H3 & H4 & H5). unfold line_of, classList_add. cbn.
  repeat split; try assumption. right. destruct H5 as [-> | ->]; reflexivity.
Qed.

Lemma lookup_foldl_alter (P : element -> Prop) (f : element -> element) (ls : list nat) :
  (forall el, P el -> P (f el)) ->
  forall (h : list element) (a : nat) (el : element),
  h !! a = Some el -> P el ->
  exists el', foldl (fun h l => alter f l h) h ls !! a = Some el' /\ P el'.
Proof.
  intros Hf. induction ls as [|l ls IH]; intros h a el Ha HP; cbn [foldl].
  - exists el. split; assumption.
  - destruct (decide (a = l)) as [->|Hne].
    + apply (IH _ l (f el)); [|apply Hf; exact HP].
      rewrite list_lookup_alter_eq, Ha. reflexivity.
    + apply (IH _ a el); [|exact HP].
      rewrite list_lookup_alter_ne by congruence. exact Ha.
Qed.

Lemma shows_ext (st st' : state) (cues : list cue) (base : nat) :
  heap st' = heap st -> transcript st' = transcript st -> lines st' = lines st ->
  cueToLine st' = cueToLine st ->
  shows st cues base -> shows st' cues base.
Proof.
  unfold shows, rendered_lines. intros -> -> -> ->. exact id.
Qed.

Lemma shows_installed (c : card) (st0 : state) :
  setupCard c = Installed st0 -> shows st0 [] 0.
Proof.
  intros Hs. destruct (setupCard_installed c st0 Hs) as (_ & Hl & Hm & _ & _ & _ & _ & Hr).
  unfold shows. rewrite Hr, Hl, Hm. repeat split.
  - intros i c' Hi. discriminate.
  - intros k a Hk. rewrite lookup_empty in Hk. discriminate.
  - intros i c' Hi. discriminate.
Qed.

Lemma shows_renderFromCues (e : environment) (st : state) :
  shows (renderFromCues e st)
        (match track_cues e with Some l => l | None => [] end) (length (heap st)).
Proof.
  destruct (track_cues e) as [[|c cs]|] eqn:Hc.
  1,3: unfold renderFromCues; rewrite Hc; unfold shows; cbn; repeat split;
       try (intros i c' Hi; discriminate);
       intros k a Hk; rewrite lookup_empty in Hk; discriminate.
  assert (Hne : c :: cs <> []) by discriminate.
  destruct (renderFromCues_built e (c :: cs) Hc Hne st) as (Hh & Hl & Ht).
  pose proof (rendered_lines_renderFromCues e (c :: cs) Hc Hne st) as Hr.
  unfold shows. rewrite Hr, Hl, Hh. split; [reflexivity|]. split; [reflexivity|].
  split; [|split].
  - intros i c' Hi. exists (createLine c' i). split; [|apply line_of_createLine].
    rewrite lookup_app_r by lia.
    replace (length (heap st) + i - length (heap st)) with i by lia.
    rewrite list_lookup_imap, Hi. reflexivity.
  - intros k a Hk. unfold renderFromCues in Hk. rewrite Hc in Hk.
    apply forEach_cueToLine_Some in Hk. destruct Hk as [Hk|Hk]; [|exact Hk].
    cbn in Hk. rewrite lookup_empty in Hk. discriminate.
  - intros i c' Hi. unfold renderFromCues. rewrite Hc.
    apply forEach_cueToLine_is_Some. right. exists i, c'. split; [exact Hi|reflexivity].
Qed.

Lemma shows_setActiveCue (e : environment) (c : option cue) (st : state)
    (cues : list cue) (base : nat) :
  shows st cues base -> shows (setActiveCue e c st) cues base.
Proof.
  intros (Hr & Hl & Hel & Hk & Hs). destruct c as [c|]; [|repeat split; assumption].
  destruct (setActiveCue_frame e (Some c) st) as (Ht & Hl' & Hm & _).
  unfold shows, rendered_lines. rewrite Ht, Hl', Hm. fold (rendered_lines st).
  split; [exact Hr|]. split; [exact Hl|]. split; [|split; assumption].
  intros i c' Hi. destruct (Hel i c' Hi) as (el & Hlook & Hline).
  rewrite setActiveCue_heap.
  destruct (lookup_foldl_alter (fun el => line_of el c' i) (classList_remove "active")
              (lines st) (fun el => line_of_remove el c' i) (heap st) (base + i) el
              Hlook Hline) as (el1 & Hlook1 & Hline1).
  change (foldl _ (heap st) (lines st)) with (heap (clearActive st)) in Hlook1.
  destruct (cueToLine st !! cue_id c) as [line|]; [|exists el1; split; assumption].
  destruct (decide (base + i = line)) as [<-|Hne].
  - exists (classList_add "active" el1). split; [|apply line_of_add; exact Hline1].
    rewrite list_lookup_alter_eq, Hlook1. reflexivity.
  - exists el1. split; [|exact Hline1].
    rewrite list_lookup_alter_ne by congruence. exact Hlook1.
Qed.

(** Clicks, keys and buttons leave the view alone. *)
Lemma jump_same_view (e : environment) (c : cue) (st : state) :
  same_view st (jump e c st).
Proof. unfold jump, audio_play. destruct (play_result e); cbn; repeat split. Qed.

Lemma on_line_keydown_same_view (e : environment) (c : cue) (key : string) (st : state) :
  same_view st (on_line_keydown e c key st).
Proof.
  unfold on_line_keydown. destruct (_ || _)%bool; [|repeat split].
  unfold jump, audio_play. destruct (play_result e); cbn; repeat split.
Qed.

Lemma on_button_click_same_view (e : environment) (action : string) (st : state) :
  same_view st (on_button_click e action st).
Proof.
  unfold on_button_click, assign_currentTime.
  destruct (String.eqb action "jump-back"), (String.eqb action "jump-forward");
    repeat match goal with
           | |- context [match ?n with NaN => _ | _ => _ end] => destruct n
           end; cbn; repeat split.
Qed.

Lemma step_shows (e : environment) (ev : event) (st : state)
    (cues : list cue) (base : nat) :
  shows st cues base -> exists cues' base', shows (step e ev st) cues' base'.
Proof.
  intros Hsh. destruct ev as [| |target|target key|action]; cbn [step].
  - destruct (timer st) as [d|]; [|exists cues, base; exact Hsh].
    destruct (tick_cases e (set_clock (fun t => t + d) st)) as [-> | ->].
    + exists cues, base. exact (shows_ext st _ cues base eq_refl eq_refl eq_refl eq_refl Hsh).
    + eexists _, _. apply shows_renderFromCues.
  - exists cues, base. apply shows_setActiveCue. exact Hsh.
  - exists cues, base. destruct (heap st !! target) as [el|]; [|exact Hsh].
    destruct (jump_same_view e (jump_cue el) st) as (H1 & H2 & H3 & H4 & _).
    exact (shows_ext st _ cues base H1 H2 H3 H4 Hsh).
  - exists cues, base. destruct (heap st !! target) as [el|]; [|exact Hsh].
    destruct (on_line_keydown_same_view e (jump_cue el) key st) as (H1 & H2 & H3 & H4 & _).
    exact (shows_ext st _ cues base H1 H2 H3 H4 Hsh).
  - exists cues, base.
    destruct (on_button_click_same_view e action st) as (H1 & H2 & H3 & H4 & _).
    exact (shows_ext st _ cues base H1 H2 H3 H4 Hsh).
Qed.

Lemma run_shows (evs : list (environment * event)) : forall st cues base,
  shows st cues base -> exists cues' base', shows (run evs st) cues' base'.
Proof.
  induction evs as [|[e ev] evs IH]; intros st cues base Hsh; cbn [run].
  - exists cues, base. exact Hsh.
  - destruct (step_shows e ev st cues base Hsh) as (cues' & base' & Hsh').
    exact (IH _ cues' base' Hsh').
Qed.

Lemma filter_only (P : nat -> Prop) `{!forall a, Decision (P a)} (l : list nat) (x : nat) :
  NoDup l -> x ∈ l -> (forall a, a ∈ l -> (P a <-> a = x)) -> filter P l = [x].
Proof.
  induction l as [|y l IH]; intros Hnd Hin Hiff.
  - apply elem_of_nil in Hin. contradiction.
  - apply NoDup_cons in Hnd. destruct Hnd as [Hy Hnd].
    destruct (decide (y = x)) as [->|Hne].
    + rewrite filter_cons_True
        by (apply Hiff; [apply elem_of_cons; left|]; reflexivity).
      f_equal. apply filter_none. intros a Ha HP.
      apply Hiff in HP; [|apply elem_of_cons; right; exact Ha]. subst a. contradiction.
    + rewrite filter_cons_False.
      * apply IH; [exact Hnd| |].
        -- apply elem_of_cons in Hin. destruct Hin as [Heq|Hin]; [congruence|exact Hin].
        -- intros a Ha. apply Hiff. apply elem_of_cons. right. exact Ha.
      * intros HP. apply Hiff in HP; [contradiction|]. apply elem_of_cons. left. reflexivity.
Qed.

(** With the table pointing at a shown line, [setActiveCue] leaves that
    line marked and no other. *)
Lemma setActiveCue_exactly (e : environment) (cu : cue) (st : state)
    (cues : list cue) (base line : nat) :
  shows st cues base -> cueToLine st !! cue_id cu = Some line ->
  active_lines (setActiveCue e (Some cu) st) = [line].
Proof.
  intros (Hr & Hl & Hel & Hk & _) Hline.
  destruct (Hk _ _ Hline) as (i & c' & Hi & _ & ->).
  destruct (Hel i c' Hi) as (el & Hlook & _).
  assert (Hlt : base + i < length (heap st)) by (eapply lookup_lt_Some; exact Hlook).
  assert (Hin : base + i ∈ lines st).
  { rewrite Hl. apply elem_of_seq. apply lookup_lt_Some in Hi. lia. }
  destruct (setActiveCue_frame e (Some cu) st) as (Ht & _).
  unfold active_lines, rendered_lines. rewrite Ht. fold (rendered_lines st). rewrite Hr.
  apply filter_only; [rewrite Hl; apply NoDup_seq|exact Hin|].
  intros a Ha. split.
  - intros Hact. destruct (decide (a = base + i)) as [|Hne]; [assumption|]. exfalso.
    unfold is_active in Hact. rewrite setActiveCue_heap, Hline in Hact.
    rewrite list_lookup_alter_ne in Hact by congruence.
    pose proof (clearActive_clears st a Ha) as Hclr. unfold is_active in Hclr.
    rewrite Hclr in Hact. discriminate.
  - intros ->. apply setActiveCue_marks; assumption.
Qed.

End Shown.

(** C8: a cue change moves the scroll offset only if the wrapper is open
    and the checkbox is checked; if either fails the offset stays, and the
    marking of the lines is the one the same event gives with scrolling
    on: the line of the first active cue ends up marked, and in every
    state an installed card can reach it is then the only marked line, the
    line marked before having lost its marking. *)
Theorem scroll_only_when_open_and_checked (e e' : environment) (st : state) :
  (scrollTop (step e CueChange st) <> scrollTop st ->
     details e = Some true /\ autoScrollCheckbox e = Some true)
  /\ (details e <> Some true \/ autoScrollCheckbox e <> Some true ->
        scrollTop (step e CueChange st) = scrollTop st)
  /\ (activeCues e' = activeCues e ->
        heap (step e' CueChange st) = heap (step e CueChange st))
  /\ (forall c rest line,
        activeCues e = Some (c :: rest) -> cueToLine st !! cue_id c = Some line ->
        line < length (heap st) ->
        is_active (step e CueChange st) line = true)
  /\ (forall (c : card) (st0 : state) (evs : list (environment * event))
             (cu : cue) (rest : list cue) (line : nat),
        setupCard c = Installed st0 ->
        details e <> Some true \/ autoScrollCheckbox e <> Some true ->
        activeCues e = Some (cu :: rest) ->
        cueToLine (run evs st0) !! cue_id cu = Some line ->
        active_lines (step e CueChange (run evs st0)) = [line]
        /\ scrollTop (step e CueChange (run evs st0)) = scrollTop (run evs st0)).
Proof.
  assert (Hoff : forall s, doScroll e = false ->
            scrollTop (step e CueChange s) = scrollTop s).
  { intros s Hd. cbn [step]. unfold on_cuechange. apply setActiveCue_no_scroll. exact Hd. }
  assert (Hnot : details e <> Some true \/ autoScrollCheckbox e <> Some true ->
            doScroll e = false).
  { intros Hor. destruct (doScroll e) eqn:Hd; [|reflexivity].
    apply doScroll_true in Hd. destruct Hd as [H1 H2]. destruct Hor; congruence. }
  split; [|split; [|split; [|split]]].
  - intros Hne. apply doScroll_true. destruct (doScroll e) eqn:Hd; [reflexivity|].
    exfalso. apply Hne. apply Hoff. reflexivity.
  - intros Hor. apply Hoff, Hnot. exact Hor.
  - intros Heq. cbn [step]. unfold on_cuechange. rewrite Heq.
    destruct (activeCues e) as [[|c rest]|]; [reflexivity| |reflexivity].
    rewrite !setActiveCue_heap. reflexivity.
  - intros c rest line Ha Hl Hlt. cbn [step]. unfold on_cuechange. rewrite Ha.
    apply setActiveCue_marks; assumption.
  - intros c st0 evs cu rest line Hs Hor Ha Hl.
    split; [|apply Hoff, Hnot; exact Hor].
    destruct (run_shows evs st0 [] 0 (shows_installed c st0 Hs)) as (cues & base & Hsh).
    cbn [step]. unfold on_cuechange. rewrite Ha.
    exact (setActiveCue_exactly e cu _ cues base line Hsh Hl).
Qed.

Lemma scroll_only_when_open_and_checked_witness :
  setupCard demo_card = Installed (installed demo_player demo_container) /\
  (details (collapsed [world_cue]) <> Some true \/
   autoScrollCheckbox (collapsed [world_cue]) <> Some true) /\
  activeCues (collapsed [world_cue]) = Some [world_cue] /\
  cueToLine highlighted !! cue_id world_cue = Some 1 /\
  active_lines highlighted = [0] /\
  active_lines (step (collapsed [world_cue]) CueChange highlighted) = [1] /\
  scrollTop (step (collapsed [world_cue]) CueChange highlighted) = scrollTop highlighted.
Proof.
  unfold highlighted.
  assert (Hor : details (collapsed [world_cue]) <> Some true \/
                autoScrollCheckbox (collapsed [world_cue]) <> Some true)
    by (left; discriminate).
  assert (Hl : cueToLine (run [(loaded [], TimerFired); (loaded [hello], CueChange)]
                            (installed demo_player demo_container))
                 !! cue_id world_cue = Some 1)
    by (vm_compute; reflexivity).
  split; [reflexivity|]. split; [exact Hor|]. split; [reflexivity|]. split; [exact Hl|].
  split; [vm_compute; reflexivity|].
  exact (proj2 (proj2 (proj2 (proj2
           (scroll_only_when_open_and_checked (collapsed [world_cue]) (collapsed [world_cue])
              (installed demo_player demo_container)))))
           demo_card (installed demo_player demo_container)
           [(loaded [], TimerFired); (loaded [hello], CueChange)]
           world_cue [] 1 eq_refl Hor eq_refl Hl).
Defined.

(** C9, as amended: when auto-scroll applies and the active cue has a
    line, with paddings 20 and 30 and the padded edges as the script
    computes them, in doubles: a line whose top is above the padded top
    has the offset plus the rounded difference, which is not positive,
    assigned to [scrollTop]; otherwise a line whose bottom is below the
    padded bottom has the offset plus the rounded difference, which is not
    negative, assigned; otherwise nothing is assigned.  The offset that
    results is what the host makes of the assigned value. *)
Theorem autoscroll_moves_by_the_deficit
    (e : environment) (st : state) (c : cue) (rest : list cue) (line : nat) :
  doScroll e = true ->
  activeCues e = Some (c :: rest) ->
  cueToLine st !! cue_id c = Some line ->
  let line_top := rect_top (lineRect e line) in
  let line_bottom := rect_bottom (lineRect e line) in
  let padded_top := fl (rect_top (parentRect e) + lit 20)%Qc in
  let padded_bottom := fl (rect_bottom (parentRect e) - lit 30)%Qc in
  let after := scrollTop (step e CueChange st) in
  ((line_top < padded_top)%Qc ->
     after = scroll_to e (fl (scrollTop st + fl (line_top - padded_top))%Qc) /\
     (fl (line_top - padded_top) <= 0)%Qc /\
     (line_top - padded_top < 0)%Qc)
  /\ ((padded_top <= line_top)%Qc -> (padded_bottom < line_bottom)%Qc ->
        after = scroll_to e (fl (scrollTop st + fl (line_bottom - padded_bottom))%Qc) /\
        (0 <= fl (line_bottom - padded_bottom))%Qc /\
        (0 < line_bottom - padded_bottom)%Qc)
  /\ ((padded_top <= line_top)%Qc -> (line_bottom <= padded_bottom)%Qc ->
        after = scrollTop st).
Proof.
  intros Hd Ha Hl. cbv zeta. cbn [step]. unfold on_cuechange, setActiveCue. rewrite Ha.
  cbn [cueToLine clearActive set_heap]. rewrite Hl, Hd.
  unfold paddingTop, paddingBottom, js_add, js_sub.
  set (line_top := rect_top (lineRect e line)).
  set (line_bottom := rect_bottom (lineRect e line)).
  set (padded_top := fl (rect_top (parentRect e) + lit 20)%Qc).
  set (padded_bottom := fl (rect_bottom (parentRect e) - lit 30)%Qc).
  destruct (Qclt_le_dec line_top padded_top) as [Hup|Hup].
  - split; [|split].
    + intros _. split; [reflexivity|].
      pose proof (Qc_sub_neg _ _ Hup) as Hneg.
      split; [apply fl_nonpos, Qclt_le_weak; exact Hneg|exact Hneg].
    + intros Hge. exfalso. exact (Qclt_not_le _ _ Hup Hge).
    + intros Hge. exfalso. exact (Qclt_not_le _ _ Hup Hge).
  - destruct (Qclt_le_dec padded_bottom line_bottom) as [Hdown|Hdown].
    + split; [|split].
      * intros Hlt. exfalso. exact (Qclt_not_le _ _ Hlt Hup).
      * intros _ _. split; [reflexivity|].
        pose proof (Qc_sub_pos _ _ Hdown) as Hpos.
        split; [apply fl_nonneg, Qclt_le_weak; exact Hpos|exact Hpos].
      * intros _ Hle. exfalso. exact (Qclt_not_le _ _ Hdown Hle).
    + split; [|split].
      * intros Hlt. exfalso. exact (Qclt_not_le _ _ Hlt Hup).
      * intros _ Hlt. exfalso. exact (Qclt_not_le _ _ Hlt Hdown).
      * intros _ _. reflexivity.
Qed.

Lemma autoscroll_moves_by_the_deficit_witness :
  doScroll (loaded [world_cue]) = true /\
  activeCues (loaded [world_cue]) = Some [world_cue] /\
  cueToLine rendered !! cue_id world_cue = Some 1 /\
  scrollTop (step (loaded [world_cue]) CueChange rendered) =
    scroll_to (loaded [world_cue])
      (fl (scrollTop rendered + fl (lit 318 - fl (lit 200 - lit 30)))%Qc).
Proof.
  assert (Hl : cueToLine rendered !! cue_id world_cue = Some 1)
    by (vm_compute; reflexivity).
  split; [reflexivity|]. split; [reflexivity|]. split; [exact Hl|].
  refine (proj1 (proj1 (proj2 (autoscroll_moves_by_the_deficit
            (loaded [world_cue]) rendered world_cue [] 1 eq_refl eq_refl Hl)) _ _)).
  - vm_compute. discriminate.
  - vm_compute. reflexivity.
Defined.

(** C9 as stated fails in two ways.  With the container from 0.7 to 200.7
    and the line from 20.7 to 320.7, the line's top is above the top plus
    20, by less than the rounding of that sum, and the offset grows by
    150 instead of shrinking by the difference.  And with the line 15 above
    the padded top of a container scrolled to its start, in a host that
    keeps the offset within the scrolling range, the offset stays 0. *)
Lemma autoscroll_does_not_move_by_the_exact_deficit :
  doScroll fine_rects = true /\
  (rect_top (lineRect fine_rects 0) < rect_top (parentRect fine_rects) + lit 20)%Qc /\
  scrollTop rendered = lit 0 /\
  scrollTop (step fine_rects CueChange rendered) = lit 150 /\
  doScroll line_above = true /\
  (rect_top (lineRect line_above 0) - (rect_top (parentRect line_above) + lit 20)
   = lit (-15))%Qc /\
  scrollTop (step line_above CueChange rendered) = lit 0.
Proof.
  split; [reflexivity|]. split; [vm_compute; reflexivity|].
  split; [apply Qc_is_canon; vm_compute; reflexivity|].
  split; [apply Qc_is_canon; vm_compute; reflexivity|].
  split; [reflexivity|].
  split; apply Qc_is_canon; vm_compute; reflexivity.
Qed.


(* ===================================================================== *)
(** ** Which events render                                                *)
(* ===================================================================== *)

Section OnlyTheTimerRenders.

(** Apart from a tick of a running timer, no event renders, touches the
    container's children or the timer. *)
Lemma step_frame (e : environment) (ev : event) (st : state) :
  ev <> TimerFired \/ timer st = None ->
  transcript (step e ev st) = transcript st /\
  renders (step e ev st) = renders st /\
  timer (step e ev st) = timer st.
Proof.
  intros H. destruct ev as [| |target|target key|action]; cbn [step].
  - destruct H as [H|H]; [congruence|]. rewrite H. repeat split. exact H.
  - unfold on_cuechange, renders.
    destruct (setActiveCue_frame e
                match activeCues e with Some (c :: _) => Some c | _ => None end st)
      as (-> & _ & _ & -> & -> & _).
    repeat split.
  - destruct (heap st !! target) as [el|]; [|repeat split].
    unfold on_line_click, renders.
    destruct (jump_frame e (jump_cue el) st) as (_ & -> & _ & -> & -> & _).
    repeat split.
  - destruct (heap st !! target) as [el|]; [|repeat split].
    destruct (on_line_keydown_frame e (jump_cue el) key st) as (_ & -> & _ & -> & ->).
    repeat split.
  - destruct (on_button_click_frame e action st) as (_ & -> & _ & -> & ->).
    repeat split.
Qed.

Lemma run_frame_stopped (evs : list (environment * event)) : forall st : state,
  timer st = None ->
  transcript (run evs st) = transcript st /\ renders (run evs st) = renders st /\
  timer (run evs st) = None.
Proof.
  induction evs as [|[e ev] evs IH]; intros st Ht; cbn [run].
  - repeat split. exact Ht.
  - destruct (step_frame e ev st (or_intror Ht)) as (H1 & H2 & H3).
    rewrite Ht in H3. destruct (IH _ H3) as (-> & -> & ->). repeat split; assumption.
Qed.

Lemma renderFromCues_no_cues (e : environment) (st : state) :
  has_cues e = false -> transcript (renderFromCues e st) = [Html loading_html].
Proof.
  unfold has_cues, renderFromCues.
  destruct (track_cues e) as [[|c cs]|]; [reflexivity|discriminate|reflexivity].
Qed.

End OnlyTheTimerRenders.

(** C10: the cue-change handler never renders, and no event but a tick of
    the running timer does; so when polling has run out without cues, the
    placeholder is what the container shows after any later events,
    whatever cues the host has by then, and the one render pass stays the
    only one. *)
Theorem placeholder_is_never_replaced :
  (forall e st, renders (step e CueChange st) = renders st /\
                transcript (step e CueChange st) = transcript st)
  /\ (forall e ev st, renders (step e ev st) <> renders st ->
                      ev = TimerFired /\ timer st <> None)
  /\ (forall (c : card) (st0 : state) (world : nat -> environment) (n : nat)
             (evs : list (environment * event)),
        setupCard c = Installed st0 ->
        (forall j, 1 <= j <= 20 -> has_cues (world (150 * j)) = false) ->
        20 <= n ->
        timer (poll world n st0) = None
        /\ transcript (poll world n st0) = [Html loading_html]
        /\ transcript (run evs (poll world n st0)) = [Html loading_html]
        /\ renders (run evs (poll world n st0)) = 1).
Proof.
  split.
  { intros e st. destruct (step_frame e CueChange st) as (H1 & H2 & _);
      [left; discriminate|]. split; assumption. }
  split.
  { intros e ev st Hr.
    assert (Hev : ev = TimerFired \/ ev <> TimerFired)
      by (destruct ev; (left; reflexivity) || (right; discriminate)).
    destruct Hev as [->|Hev].
    - split; [reflexivity|]. intros Ht.
      destruct (step_frame e TimerFired st (or_intror Ht)) as (_ & H2 & _). congruence.
    - destruct (step_frame e ev st (or_introl Hev)) as (_ & H2 & _). congruence. }
  intros c st0 world n evs Hs Hnone Hn.
  destruct (polling_outcome c st0 world Hs) as (k & Hk & Hlast & _ & _ & Hdone).
  assert (Hk20 : k = 20).
  { destruct Hlast as [Hcue|]; [|assumption]. rewrite Hnone in Hcue by lia. discriminate. }
  subst k. rewrite Hdone by lia.
  assert (Ht : timer (polled world 150 20 st0) = None) by apply timer_polled.
  assert (Htr : transcript (polled world 150 20 st0) = [Html loading_html]).
  { unfold polled. apply renderFromCues_no_cues. apply Hnone. lia. }
  assert (Hr : renders (polled world 150 20 st0) = 1).
  { unfold polled. rewrite renders_renderFromCues. unfold renders. cbn.
    destruct (setupCard_installed c st0 Hs) as (_&_&_&_&_&_&->&_). reflexivity. }
  destruct (run_frame_stopped evs _ Ht) as (H1 & H2 & _).
  rewrite H1, H2. repeat split; assumption.
Qed.

Lemma placeholder_is_never_replaced_witness :
  setupCard demo_card = Installed (installed demo_player demo_container) /\
  (forall j, 1 <= j <= 20 -> has_cues idle = false) /\
  transcript (run [(loaded [hello], CueChange); (loaded [world_cue], CueChange)]
                  still_loading) = [Html loading_html].
Proof.
  assert (Hnone : forall j, 1 <= j <= 20 -> has_cues idle = false)
    by (intros j _; reflexivity).
  split; [reflexivity|]. split; [exact Hnone|].
  refine (proj1 (proj2 (proj2
            (proj2 (proj2 placeholder_is_never_replaced) demo_card
               (installed demo_player demo_container) (fun _ => idle) 20
               [(loaded [hello], CueChange); (loaded [world_cue], CueChange)]
               eq_refl Hnone _)))).
  lia.
Defined.

(* ===================================================================== *)
(** ** Seeking: lines and buttons                                         *)
(* ===================================================================== *)

(** C6, as amended: a click on a line, or Enter or Space on it, sets the
    playback position to the sum, in doubles, of the start time of the
    line's cue and of [0.01], that is to the double nearest to the exact
    sum of the two, and calls [play]; playback starts if the host allows
    it, and a refusal leaves no trace: nothing is reported and the state is
    otherwise as before. *)
Theorem line_activation_seeks_and_plays
    (e : environment) (st : state) (target : nat) (el : element) (key : string) :
  heap st !! target = Some el ->
  key = "Enter" \/ key = " " ->
  currentTime (step e (Click target) st)
    = fl (startTime (jump_cue el) + fl (dec 1 100))%Qc
  /\ currentTime (step e (KeyDown target key) st)
     = fl (startTime (jump_cue el) + fl (dec 1 100))%Qc
  /\ is_double (currentTime (step e (Click target) st))
  /\ (play_result e = Fulfilled ->
        paused (step e (Click target) st) = false /\
        paused (step e (KeyDown target key) st) = false)
  /\ (forall r, play_result e = Rejected r ->
        paused (step e (Click target) st) = paused st /\
        paused (step e (KeyDown target key) st) = paused st)
  /\ log (step e (Click target) st) = log st
  /\ log (step e (KeyDown target key) st) = DefaultPrevented :: log st.
Proof.
  intros Hel Hkey. cbn [step]. rewrite Hel.
  unfold on_line_click, on_line_keydown.
  assert (Hk : (String.eqb key "Enter" || String.eqb key " ")%bool = true)
    by (destruct Hkey as [-> | ->]; reflexivity).
  rewrite Hk. unfold jump, audio_play, js_add, is_double.
  destruct (play_result e) as [|r]; cbn [currentTime paused log set_currentTime set_paused
                                         settle catch record].
  - split; [reflexivity|]. split; [reflexivity|]. split; [apply fl_idem|].
    split; [intros _; split; reflexivity|]. split; [intros r Hr; discriminate Hr|].
    split; reflexivity.
  - split; [reflexivity|]. split; [reflexivity|]. split; [apply fl_idem|].
    split; [intros Hr; discriminate Hr|]. split; [intros r' _; split; reflexivity|].
    split; reflexivity.
Qed.

Lemma line_activation_seeks_and_plays_witness :
  heap highlighted !! 1 = Some (createLine world_cue 1) /\
  currentTime (step (loaded []) (Click 1) highlighted) = fl (lit 5 + fl (dec 1 100))%Qc /\
  log (step (loaded []) (Click 1) highlighted) = log highlighted.
Proof.
  assert (Hel : heap highlighted !! 1 = Some (createLine world_cue 1))
    by (vm_compute; reflexivity).
  split; [exact Hel|].
  pose proof (line_activation_seeks_and_plays (loaded []) highlighted 1
                (createLine world_cue 1) "Enter" Hel (or_introl eq_refl)) as H.
  split; [exact (proj1 H)|].
  exact (proj1 (proj2 (proj2 (proj2 (proj2 (proj2 H)))))).
Defined.

(** C6 as stated fails: for the cue that starts at 0.2 s the position set
    is 0.21000000000000002 ([3783023686991217 / 2^54]), which is neither
    the start time plus one hundredth nor the exact sum of the start time
    and the double [0.01]. *)
Lemma line_activation_rounds_the_sum :
  heap fifth_rendered !! 0 = Some (createLine fifth 0) /\
  is_double (startTime fifth) /\
  currentTime (step idle (Click 0) fifth_rendered)
    = Q2Qc (3783023686991217 # 18014398509481984) /\
  currentTime (step idle (Click 0) fifth_rendered) <> (startTime fifth + dec 1 100)%Qc /\
  currentTime (step idle (Click 0) fifth_rendered) <> (startTime fifth + fl (dec 1 100))%Qc.
Proof.
  split; [vm_compute; reflexivity|].
  split; [apply fl_idem|].
  assert (Hv : currentTime (step idle (Click 0) fifth_rendered)
               = Q2Qc (3783023686991217 # 18014398509481984))
    by (apply Qc_is_canon; vm_compute; reflexivity).
  split; [exact Hv|]. rewrite Hv.
  split; intros H; apply (f_equal this) in H; vm_compute in H; discriminate H.
Qed.

Section Buttons.

Local Open Scope Qc_scope.

Lemma jump_back_position (e : environment) (st : state) :
  let back := currentTime (step e (ButtonClick "jump-back") st) in
  0 <= back /\ fl (currentTime st - lit 5) <= back /\
  (back = 0 \/ back = fl (currentTime st - lit 5)).
Proof.
  cbn [step]. unfold on_button_click, js_sub.
  change (String.eqb "jump-back" "jump-back") with true.
  change (String.eqb "jump-back" "jump-forward") with false.
  cbv iota zeta. unfold Math_max, num_lt.
  destruct (Qclt_le_dec 0 (fl (currentTime st - lit 5))) as [Hlt|Hle]; cbn.
  - split; [apply Qclt_le_weak; exact Hlt|]. split; [apply Qcle_refl|right; reflexivity].
  - split; [apply Qcle_refl|]. split; [exact Hle|left; reflexivity].
Qed.

Lemma jump_forward_capped (e : environment) (st : state) (d : Qc) :
  duration e = Fin d -> d <> 0 ->
  let fwd := currentTime (step e (ButtonClick "jump-forward") st) in
  fwd <= d /\ fwd <= fl (currentTime st + lit 5) /\
  (fwd = d \/ fwd = fl (currentTime st + lit 5)).
Proof.
  intros Hd Hnz. cbn [step]. unfold on_button_click, js_add.
  change (String.eqb "jump-forward" "jump-back") with false.
  change (String.eqb "jump-forward" "jump-forward") with true.
  cbv iota zeta. rewrite Hd. unfold or_else.
  destruct (Qc_eq_bool d 0) eqn:E; [apply Qc_eq_bool_correct in E; contradiction|].
  unfold Math_min, num_lt.
  destruct (Qclt_le_dec (fl (currentTime st + lit 5)) d) as [Hlt|Hle]; cbn.
  - split; [apply Qclt_le_weak; exact Hlt|]. split; [apply Qcle_refl|right; reflexivity].
  - split; [apply Qcle_refl|]. split; [exact Hle|left; reflexivity].
Qed.

Lemma jump_forward_uncapped (e : environment) (st : state) :
  duration e = NaN \/ duration e = Fin 0 \/ duration e = PosInf ->
  currentTime (step e (ButtonClick "jump-forward") st) = fl (currentTime st + lit 5).
Proof.
  intros H. cbn [step]. unfold on_button_click, js_add.
  change (String.eqb "jump-forward" "jump-back") with false.
  change (String.eqb "jump-forward" "jump-forward") with true.
  cbv iota zeta. destruct H as [-> | [-> | ->]]; reflexivity.
Qed.

(** Below [2^53] the difference [t - 5] of a double is exact, or
    negative. *)
Lemma jump_back_exact (e : environment) (st : state) :
  is_double (currentTime st) -> currentTime st < lit (2 ^ 53) ->
  let back := currentTime (step e (ButtonClick "jump-back") st) in
  0 <= back /\ currentTime st - lit 5 <= back /\
  (back = 0 \/ back = currentTime st - lit 5).
Proof.
  intros Hd Hlt. destruct (jump_back_position e st) as (H0 & H1 & H2). cbv zeta.
  destruct (Qclt_le_dec (currentTime st) (lit 5)) as [Hsmall|Hbig].
  - assert (Hneg : currentTime st - lit 5 <= 0)
      by (apply Qclt_le_weak, Qc_sub_neg; exact Hsmall).
    assert (Hz : currentTime (step e (ButtonClick "jump-back") st) = 0).
    { destruct H2 as [H2|H2]; [exact H2|]. apply Qcle_antisym; [|exact H0].
      rewrite H2. apply fl_nonpos. exact Hneg. }
    rewrite Hz. split; [apply Qcle_refl|]. split; [exact Hneg|left; reflexivity].
  - assert (E : fl (currentTime st - lit 5) = currentTime st - lit 5)
      by (apply (js_sub_lit_exact (currentTime st) 5 Hd); [lia|exact Hbig|exact Hlt]).
    rewrite E in H1, H2. split; [exact H0|]. split; assumption.
Qed.

End Buttons.

(** C7, as amended: jump-back sets the position to the larger of 0 and
    the rounded difference of [t] and 5, which for a position below [2^53]
    is the larger of 0 and [t - 5]; jump-forward sets it to the smaller of
    the duration and the rounded sum of [t] and 5 when the duration is a
    number other than zero, and to that rounded sum when the duration is
    unknown, unbounded or zero; from 10 seconds it gives 15, with a
    duration of 20 as with an unknown one. *)
Theorem jump_buttons_move_by_five (e : environment) (st : state) :
  (let back := currentTime (step e (ButtonClick "jump-back") st) in
   (0 <= back)%Qc /\ (fl (currentTime st - lit 5) <= back)%Qc /\
   (back = Q2Qc 0 \/ back = fl (currentTime st - lit 5)%Qc))
  /\ (is_double (currentTime st) -> (currentTime st < lit (2 ^ 53))%Qc ->
      let back := currentTime (step e (ButtonClick "jump-back") st) in
      (0 <= back)%Qc /\ (currentTime st - lit 5 <= back)%Qc /\
      (back = Q2Qc 0 \/ back = (currentTime st - lit 5)%Qc))
  /\ (forall d : Qc, duration e = Fin d -> d <> Q2Qc 0 ->
        let fwd := currentTime (step e (ButtonClick "jump-forward") st) in
        (fwd <= d)%Qc /\ (fwd <= fl (currentTime st + lit 5))%Qc /\
        (fwd = d \/ fwd = fl (currentTime st + lit 5)%Qc))
  /\ (duration e = NaN \/ duration e = Fin (Q2Qc 0) \/ duration e = PosInf ->
        currentTime (step e (ButtonClick "jump-forward") st)
        = fl (currentTime st + lit 5)%Qc)
  /\ currentTime (step twenty_long (ButtonClick "jump-forward") at_ten) = lit 15
  /\ currentTime (step idle (ButtonClick "jump-forward") at_ten) = lit 15.
Proof.
  split; [apply jump_back_position|].
  split; [apply jump_back_exact|].
  split; [intros d Hd Hnz; apply jump_forward_capped; assumption|].
  split; [apply jump_forward_uncapped|].
  split; apply Qc_is_canon; vm_compute; reflexivity.
Qed.

Lemma jump_buttons_move_by_five_witness :
  duration twenty_long = Fin (lit 20) /\ lit 20 <> Q2Qc 0 /\
  (currentTime (step twenty_long (ButtonClick "jump-forward") at_ten) <= lit 20)%Qc.
Proof.
  assert (Hnz : lit 20 <> Q2Qc 0) by discriminate.
  split; [reflexivity|]. split; [exact Hnz|].
  exact (proj1 (proj1 (proj2 (proj2 (jump_buttons_move_by_five twenty_long at_ten)))
                  (lit 20) eq_refl Hnz)).
Defined.

(** C7 as stated fails in two ways.  At a duration of zero, which is a
    known duration, jump-forward from position 0 goes to 5, not to the
    smaller of 0 and 5.  And from 60.086268 s in a resource of one hour it
    goes to 65.08626799999999 ([2290019471185439 / 2^45]), which is
    neither the duration nor the position plus 5. *)
Lemma jump_forward_zero_duration_uncapped :
  duration empty_media = Fin (lit 0) /\
  currentTime (installed demo_player demo_container) = lit 0 /\
  currentTime (step empty_media (ButtonClick "jump-forward")
                 (installed demo_player demo_container)) = lit 5 /\
  Math_min (duration empty_media) (Fin (lit 0 + lit 5)%Qc) = Fin (lit 0) /\
  lit 5 <> lit 0 /\
  duration hour_long = Fin (lit 3600) /\
  is_double (currentTime at_sixty) /\
  currentTime (step hour_long (ButtonClick "jump-forward") at_sixty)
    = Q2Qc (2290019471185439 # 35184372088832) /\
  currentTime (step hour_long (ButtonClick "jump-forward") at_sixty)
    <> (currentTime at_sixty + lit 5)%Qc /\
  currentTime (step hour_long (ButtonClick "jump-forward") at_sixty) <> lit 3600.
Proof.
  split; [reflexivity|]. split; [reflexivity|].
  split; [apply Qc_is_canon; vm_compute; reflexivity|].
  split; [vm_compute; reflexivity|]. split; [discriminate|].
  split; [reflexivity|]. split; [apply fl_idem|].
  assert (Hv : currentTime (step hour_long (ButtonClick "jump-forward") at_sixty)
               = Q2Qc (2290019471185439 # 35184372088832))
    by (apply Qc_is_canon; vm_compute; reflexivity).
  split; [exact Hv|]. rewrite Hv.
  split; intros H; apply (f_equal this) in H; vm_compute in H; discriminate H.
Qed.


(* ===================================================================== *)
(** ** More on formatTime                                                 *)
(* ===================================================================== *)

Section TimeLabels.

Local Open Scope Qc_scope.

Lemma Qfloor_whole (z : Z) : Qfloor (Q2Qc (inject_Z z)) = z.
Proof.
  transitivity (Qfloor (inject_Z z)); [|apply Qfloor_Z].
  apply Qfloor_comp. simpl. apply Qred_correct.
Qed.

Lemma whole_nonneg (z : Z) : (0 <= z)%Z -> 0 <= Q2Qc (inject_Z z).
Proof.
  intros H. rewrite Zle_Qle in H. unfold Qcle.
  change (this (Q2Qc (inject_Z z))) with (Qred (inject_Z z)).
  rewrite Qred_correct. exact H.
Qed.

Lemma digit_inj (a b : Z) :
  (0 <= a < 10)%Z -> (0 <= b < 10)%Z ->
  ascii_of_nat (48 + Z.to_nat a) = ascii_of_nat (48 + Z.to_nat b) -> a = b.
Proof.
  intros Ha Hb H. apply (f_equal nat_of_ascii) in H.
  rewrite !nat_ascii_embedding in H by lia. lia.
Qed.

Lemma two_digits_inj (m n : Z) :
  (0 <= m < 100)%Z -> (0 <= n < 100)%Z -> two_digits m = two_digits n -> m = n.
Proof.
  intros Hm Hn H. unfold two_digits in H. injection H as H1 H2.
  assert (Hb : forall z, (0 <= z < 100)%Z -> (0 <= z / 10 < 10)%Z /\ (0 <= z mod 10 < 10)%Z).
  { intros z Hz. split; [|apply Z.mod_pos_bound; lia].
    split; [apply Z.div_pos; lia|apply Z.div_lt_upper_bound; lia]. }
  destruct (Hb m Hm) as [Hm1 Hm2]. destruct (Hb n Hn) as [Hn1 Hn2].
  assert (Hd : (m / 10 = n / 10)%Z) by (apply digit_inj; assumption).
  assert (Hu : (m mod 10 = n mod 10)%Z) by (apply digit_inj; assumption).
  rewrite (Z.div_mod m 10), (Z.div_mod n 10) by lia. rewrite Hd, Hu. reflexivity.
Qed.

Lemma label_fields (a b c d : Z) :
  two_digits a +:+ ":" +:+ two_digits b = two_digits c +:+ ":" +:+ two_digits d ->
  two_digits a = two_digits c /\ two_digits b = two_digits d.
Proof.
  unfold two_digits.
  generalize (ascii_of_nat (48 + Z.to_nat (a / 10))) (ascii_of_nat (48 + Z.to_nat (a mod 10)))
             (ascii_of_nat (48 + Z.to_nat (b / 10))) (ascii_of_nat (48 + Z.to_nat (b mod 10)))
             (ascii_of_nat (48 + Z.to_nat (c / 10))) (ascii_of_nat (48 + Z.to_nat (c mod 10)))
             (ascii_of_nat (48 + Z.to_nat (d / 10))) (ascii_of_nat (48 + Z.to_nat (d mod 10))).
  intros a1 a2 b1 b2 c1 c2 d1 d2 H. simpl in H.
  injection H as -> -> -> ->. split; reflexivity.
Qed.

Lemma formatTime_two_fields (q : Qc) :
  0 <= q ->
  formatTime (Num (Fin q)) =
    padStart (pretty (Qfloor q / 60)%Z) 2 "0" +:+ ":" +:+ two_digits (Qfloor q mod 60).
Proof.
  intros H. rewrite (formatTime_finite q H). f_equal. f_equal.
  apply padStart_two_digits.
  pose proof (Z.mod_pos_bound (Qfloor q) 60). lia.
Qed.

End TimeLabels.

(** X1: on a finite non-negative argument below [2^52] the label is the
    minutes, never cut, on at least two digits, a colon, and the seconds on
    exactly two digits, below sixty; the minutes stay below [2^53], where
    they are printed in plain decimal; when the argument is a double,
    rounding the quotient by 60 to a double, as the script does before
    taking its floor, gives the same minutes; the fraction of a second plays
    no part, so the argument and its floor get the same label. *)
Theorem formatTime_drops_the_fraction (q : Qc) :
  (0 <= q)%Qc -> (q < lit (2 ^ 52))%Qc ->
  formatTime (Num (Fin q)) =
    padStart (pretty (Qfloor q / 60)%Z) 2 "0" +:+ ":" +:+ two_digits (Qfloor q mod 60)
  /\ (0 <= Qfloor q mod 60 < 60)%Z
  /\ (0 <= Qfloor q / 60 < 2 ^ 53)%Z
  /\ (is_double q ->
      Math_floor (Fin (fl (q / lit 60)%Qc)) = Math_floor (num_div (Fin q) (lit 60)))
  /\ formatTime (Num (Fin q)) = formatTime (Num (Fin (Q2Qc (inject_Z (Qfloor q))))).
Proof.
  intros Hlo Hhi.
  pose proof (Qfloor_nonneg q Hlo) as Hf0.
  pose proof (Qfloor_below q _ Hhi) as Hf1.
  split; [apply formatTime_two_fields; exact Hlo|].
  split; [apply Z.mod_pos_bound; lia|].
  split; [split; [apply Z.div_pos; lia|apply Z.div_lt_upper_bound; lia]|].
  split.
  { intros Hd. cbn [Math_floor num_div]. f_equal.
    apply floor_of_rounded_quotient; assumption. }
  rewrite (formatTime_two_fields q Hlo).
  rewrite (formatTime_two_fields _ (whole_nonneg _ Hf0)).
  rewrite Qfloor_whole. reflexivity.
Qed.

Lemma formatTime_drops_the_fraction_witness :
  (0 <= dec 251 2)%Qc /\ (dec 251 2 < lit (2 ^ 52))%Qc /\
  formatTime (Num (Fin (dec 251 2))) = formatTime (Num (Fin (lit 125))).
Proof.
  assert (Hlo : (0 <= dec 251 2)%Qc) by (vm_compute; discriminate).
  assert (Hhi : (dec 251 2 < lit (2 ^ 52))%Qc) by (vm_compute; reflexivity).
  split; [exact Hlo|]. split; [exact Hhi|].
  exact (proj2 (proj2 (proj2 (proj2 (formatTime_drops_the_fraction (dec 251 2) Hlo Hhi))))).
Defined.

(** X2: below one hundred minutes the label tells the whole second: two
    arguments with the same label have the same floor. *)
Theorem formatTime_label_determines_second (p q : Qc) :
  (0 <= p)%Qc -> (p < lit 6000)%Qc -> (0 <= q)%Qc -> (q < lit 6000)%Qc ->
  formatTime (Num (Fin p)) = formatTime (Num (Fin q)) ->
  Qfloor p = Qfloor q.
Proof.
  intros Hp0 Hp1 Hq0 Hq1.
  pose proof (Qfloor_nonneg p Hp0). pose proof (Qfloor_below p 6000 Hp1).
  pose proof (Qfloor_nonneg q Hq0). pose proof (Qfloor_below q 6000 Hq1).
  assert (Hmp : (0 <= Qfloor p / 60 < 100)%Z)
    by (split; [apply Z.div_pos; lia | apply Z.div_lt_upper_bound; lia]).
  assert (Hmq : (0 <= Qfloor q / 60 < 100)%Z)
    by (split; [apply Z.div_pos; lia | apply Z.div_lt_upper_bound; lia]).
  pose proof (Z.mod_pos_bound (Qfloor p) 60) as Hrp.
  pose proof (Z.mod_pos_bound (Qfloor q) 60) as Hrq.
  rewrite (formatTime_two_fields p Hp0), (formatTime_two_fields q Hq0).
  rewrite !padStart_two_digits by assumption.
  intros Heq.
  destruct (label_fields _ _ _ _ Heq) as [Hm Hr].
  assert (Hm' : (Qfloor p / 60 = Qfloor q / 60)%Z)
    by (apply two_digits_inj; assumption).
  assert (Hr' : (Qfloor p mod 60 = Qfloor q mod 60)%Z)
    by (apply two_digits_inj; [lia|lia|exact Hr]).
  rewrite (Z.div_mod (Qfloor p) 60), (Z.div_mod (Qfloor q) 60) by lia.
  rewrite Hm', Hr'. reflexivity.
Qed.

Lemma formatTime_label_determines_second_witness :
  formatTime (Num (Fin (dec 1257 10))) = formatTime (Num (Fin (dec 1251 10))) /\
  Qfloor (dec 1257 10) = Qfloor (dec 1251 10).
Proof.
  assert (Heq : formatTime (Num (Fin (dec 1257 10))) = formatTime (Num (Fin (dec 1251 10))))
    by (vm_compute; reflexivity).
  split; [exact Heq|].
  refine (formatTime_label_determines_second (dec 1257 10) (dec 1251 10) _ _ _ _ Heq).
  - vm_compute. discriminate.
  - vm_compute. reflexivity.
  - vm_compute. discriminate.
  - vm_compute. reflexivity.
Defined.


(** X3: in every state an installed card can reach, the container shows
    the lines of one cue list, one line per cue and in order; each line
    still has the attributes, the time label and the text it was made
    with, and its class list is [line] or [line active]; and every entry
    of [cueToLine] points at a line that is shown. *)
Theorem shown_lines_keep_their_content
    (c : card) (st0 : state) (evs : list (environment * event)) :
  setupCard c = Installed st0 ->
  exists cues : list cue,
    length (rendered_lines (run evs st0)) = length cues
    /\ (forall i cu, cues !! i = Some cu ->
          exists a el, rendered_lines (run evs st0) !! i = Some a /\
                       heap (run evs st0) !! a = Some el /\ line_of el cu i)
    /\ (forall k a, cueToLine (run evs st0) !! k = Some a ->
          a ∈ rendered_lines (run evs st0)).
Proof.
  intros Hs.
  destruct (run_shows evs st0 [] 0 (shows_installed c st0 Hs))
    as (cues & base & Hr & Hl & Hel & Hk & _).
  exists cues. rewrite Hr, Hl. split; [apply length_seq|]. split.
  - intros i cu Hi. destruct (Hel i cu Hi) as (el & Hlook & Hline).
    exists (base + i), el. split; [|split; assumption].
    apply lookup_seq. split; [reflexivity|]. eapply lookup_lt_Some. exact Hi.
  - intros k a Ha. destruct (Hk k a Ha) as (i & cu & Hi & _ & ->).
    apply elem_of_seq. apply lookup_lt_Some in Hi. lia.
Qed.

Lemma shown_lines_keep_their_content_witness :
  setupCard demo_card = Installed (installed demo_player demo_container) /\
  exists cues : list cue, length (rendered_lines highlighted) = length cues.
Proof.
  split; [reflexivity|].
  destruct (shown_lines_keep_their_content demo_card
              (installed demo_player demo_container)
              [(loaded [], TimerFired); (loaded [hello], CueChange)] eq_refl)
    as (cues & Hlen & _).
  exists cues. exact Hlen.
Defined.

(** X4: in every reachable state, a cue change whose first active cue has
    an entry in [cueToLine] leaves exactly that cue's line marked: the
    line is shown, it is the only active one, and it closes over a cue of
    that identity. *)
Theorem cue_change_marks_exactly_its_line
    (c : card) (st0 : state) (evs : list (environment * event))
    (e : environment) (cu : cue) (rest : list cue) (line : nat) :
  setupCard c = Installed st0 ->
  activeCues e = Some (cu :: rest) ->
  cueToLine (run evs st0) !! cue_id cu = Some line ->
  active_lines (step e CueChange (run evs st0)) = [line]
  /\ line ∈ rendered_lines (step e CueChange (run evs st0))
  /\ exists el, heap (step e CueChange (run evs st0)) !! line = Some el /\
                cue_id (jump_cue el) = cue_id cu /\ "active" ∈ classList el.
Proof.
  intros Hs Ha Hline.
  destruct (run_shows evs st0 [] 0 (shows_installed c st0 Hs)) as (cues & base & Hsh).
  cbn [step]. unfold on_cuechange. rewrite Ha.
  pose proof (setActiveCue_exactly e cu _ cues base line Hsh Hline) as Hex.
  split; [exact Hex|].
  assert (Hin : line ∈ active_lines (setActiveCue e (Some cu) (run evs st0)))
    by (rewrite Hex; apply list_elem_of_singleton; reflexivity).
  unfold active_lines in Hin. apply list_elem_of_filter in Hin. destruct Hin as [Hact Hin].
  split; [exact Hin|].
  destruct (shows_setActiveCue e (Some cu) _ cues base Hsh) as (_ & _ & Hel & Hk & _).
  destruct (setActiveCue_frame e (Some cu) (run evs st0)) as (_ & _ & Hm & _).
  rewrite <- Hm in Hline. destruct (Hk _ _ Hline) as (i & cu' & Hi & Hid & ->).
  destruct (Hel i cu' Hi) as (el & Hlook & (_ & _ & _ & Hj & _)).
  exists el. split; [exact Hlook|]. split; [rewrite Hj; exact Hid|].
  unfold is_active in Hact. rewrite Hlook in Hact.
  apply bool_decide_eq_true in Hact. exact Hact.
Qed.

Lemma cue_change_marks_exactly_its_line_witness :
  setupCard demo_card = Installed (installed demo_player demo_container) /\
  cueToLine highlighted !! cue_id world_cue = Some 1 /\
  active_lines (step (loaded [world_cue]) CueChange highlighted) = [1].
Proof.
  unfold highlighted.
  assert (Hl : cueToLine (run [(loaded [], TimerFired); (loaded [hello], CueChange)]
                            (installed demo_player demo_container))
                 !! cue_id world_cue = Some 1)
    by (vm_compute; reflexivity).
  split; [reflexivity|]. split; [exact Hl|].
  exact (proj1 (cue_change_marks_exactly_its_line demo_card
                  (installed demo_player demo_container)
                  [(loaded [], TimerFired); (loaded [hello], CueChange)]
                  (loaded [world_cue]) world_cue [] 1 eq_refl eq_refl Hl)).
Defined.

(** X5: in every reachable state, a cue change whose first active cue has
    no entry in [cueToLine] (a cue that was not there at the last render
    pass) removes the marking from every shown line, marks none, and does
    not scroll. *)
Theorem cue_change_for_unknown_cue_clears
    (c : card) (st0 : state) (evs : list (environment * event))
    (e : environment) (cu : cue) (rest : list cue) :
  setupCard c = Installed st0 ->
  activeCues e = Some (cu :: rest) ->
  cueToLine (run evs st0) !! cue_id cu = None ->
  active_lines (step e CueChange (run evs st0)) = []
  /\ scrollTop (step e CueChange (run evs st0)) = scrollTop (run evs st0)
  /\ rendered_lines (step e CueChange (run evs st0)) = rendered_lines (run evs st0).
Proof.
  intros Hs Ha Hnone.
  destruct (run_shows evs st0 [] 0 (shows_installed c st0 Hs))
    as (cues & base & Hr & _).
  cbn [step]. unfold on_cuechange. rewrite Ha.
  destruct (setActiveCue_frame e (Some cu) (run evs st0)) as (Ht & _).
  assert (Hrl : rendered_lines (setActiveCue e (Some cu) (run evs st0))
                = rendered_lines (run evs st0))
    by (unfold rendered_lines; rewrite Ht; reflexivity).
  split; [|split; [|exact Hrl]].
  - unfold active_lines. rewrite Hrl. apply filter_none. intros a Hin.
    rewrite Hr in Hin. unfold is_active. rewrite setActiveCue_heap, Hnone.
    pose proof (clearActive_clears _ a Hin) as Hclr. unfold is_active in Hclr.
    rewrite Hclr. discriminate.
  - unfold setActiveCue. cbn [cueToLine clearActive set_heap]. rewrite Hnone. reflexivity.
Qed.

Lemma cue_change_for_unknown_cue_clears_witness :
  setupCard demo_card = Installed (installed demo_player demo_container) /\
  cueToLine highlighted !! cue_id stranger = None /\
  active_lines highlighted = [0] /\
  active_lines (step (loaded [stranger]) CueChange highlighted) = [].
Proof.
  unfold highlighted.
  assert (Hl : cueToLine (run [(loaded [], TimerFired); (loaded [hello], CueChange)]
                            (installed demo_player demo_container))
                 !! cue_id stranger = None)
    by (vm_compute; reflexivity).
  split; [reflexivity|]. split; [exact Hl|]. split; [vm_compute; reflexivity|].
  exact (proj1 (cue_change_for_unknown_cue_clears demo_card
                  (installed demo_player demo_container)
                  [(loaded [], TimerFired); (loaded [hello], CueChange)]
                  (loaded [stranger]) stranger [] eq_refl eq_refl Hl)).
Defined.

(** X6: after a render pass over cues of distinct identities, each cue is
    entered in [cueToLine] under the line at its own position, and a cue
    change for the cue at position [i] marks the [i]-th shown line and no
    other. *)
Theorem rendered_cue_highlights_its_own_line
    (e e' : environment) (st : state) (cues : list cue)
    (i : nat) (cu : cue) (rest : list cue) :
  track_cues e = Some cues ->
  NoDup (cue_id <$> cues) ->
  cues !! i = Some cu ->
  activeCues e' = Some (cu :: rest) ->
  cueToLine (renderFromCues e st) !! cue_id cu = Some (length (heap st) + i)
  /\ rendered_lines (renderFromCues e st) !! i = Some (length (heap st) + i)
  /\ active_lines (step e' CueChange (renderFromCues e st)) = [length (heap st) + i].
Proof.
  intros Hc Hnd Hi Ha.
  pose proof (shows_renderFromCues e st) as Hsh. rewrite Hc in Hsh.
  assert (Hline : cueToLine (renderFromCues e st) !! cue_id cu = Some (length (heap st) + i)).
  { destruct Hsh as (_ & _ & _ & Hk & Hsome).
    destruct (Hsome i cu Hi) as [a Hlook].
    destruct (Hk _ _ Hlook) as (j & cu' & Hj & Hid & ->).
    assert (i = j) as <-; [|exact Hlook].
    eapply NoDup_lookup; [exact Hnd| |].
    - rewrite list_lookup_fmap, Hi. reflexivity.
    - rewrite list_lookup_fmap, Hj. cbn. rewrite Hid. reflexivity. }
  split; [exact Hline|]. split.
  - destruct Hsh as (-> & -> & _). apply lookup_seq. split; [reflexivity|].
    eapply lookup_lt_Some. exact Hi.
  - cbn [step]. unfold on_cuechange. rewrite Ha.
    exact (setActiveCue_exactly e' cu _ cues _ _ Hsh Hline).
Qed.

Lemma rendered_cue_highlights_its_own_line_witness :
  NoDup (cue_id <$> [hello; world_cue]) /\
  active_lines (step (loaded [world_cue]) CueChange
                  (renderFromCues (loaded []) highlighted)) = [3].
Proof.
  assert (Hnd : NoDup (cue_id <$> [hello; world_cue])).
  { cbn. apply NoDup_cons. split.
    - intros H. apply list_elem_of_singleton in H. discriminate.
    - apply NoDup_singleton. }
  split; [exact Hnd|].
  exact (proj2 (proj2 (rendered_cue_highlights_its_own_line (loaded []) (loaded [world_cue])
                         highlighted [hello; world_cue] 1 world_cue []
                         eq_refl Hnd eq_refl eq_refl))).
Defined.

(** X7: a render pass starts afresh.  The elements made before are left
    as they are in the heap, but none of them is shown any more; the lines
    now shown are new elements, and none of them is marked active. *)
Theorem render_pass_starts_afresh (e : environment) (st : state) :
  (forall a el, heap st !! a = Some el -> heap (renderFromCues e st) !! a = Some el)
  /\ (forall a, a ∈ rendered_lines (renderFromCues e st) ->
        length (heap st) <= a < length (heap (renderFromCues e st)))
  /\ (forall a, a < length (heap st) -> a ∉ rendered_lines (renderFromCues e st))
  /\ active_lines (renderFromCues e st) = []
  /\ lines (renderFromCues e st) = rendered_lines (renderFromCues e st).
Proof.
  destruct (shows_renderFromCues e st) as (Hr & Hl & Hel & _).
  assert (Hfresh : forall a, a ∈ rendered_lines (renderFromCues e st) ->
             length (heap st) <= a < length (heap (renderFromCues e st))).
  { intros a Ha. rewrite Hr, Hl in Ha. apply elem_of_seq in Ha.
    split; [lia|].
    destruct (lookup_lt_is_Some_2 (match track_cues e with Some l => l | None => [] end)
                (a - length (heap st))) as [cu Hcu]; [lia|].
    destruct (Hel _ cu Hcu) as (el & Hlook & _).
    apply lookup_lt_Some in Hlook. lia. }
  split; [|split; [exact Hfresh|split; [|split]]].
  - intros a el Ha. unfold renderFromCues.
    destruct (track_cues e) as [[|cu cs]|]; [exact Ha| |exact Ha].
    rewrite forEach_render_cue_heap. cbn [heap set_cueToLine set_lines set_transcript record].
    apply lookup_app_l_Some. exact Ha.
  - intros a Ha Hin. apply Hfresh in Hin. lia.
  - apply renderFromCues_fresh.
  - symmetry. exact Hr.
Qed.


(* ===================================================================== *)
(** ** The timer among the other events                                   *)
(* ===================================================================== *)

Section TimerAmongEvents.

(** What is not a timer tick leaves the polling alone. *)
Lemma step_keeps_polling (e : environment) (ev : event) (st : state) :
  ev <> TimerFired ->
  timer (step e ev st) = timer st /\ attempts (step e ev st) = attempts st /\
  renders (step e ev st) = renders st.
Proof.
  intros Hev. destruct (step_frame e ev st (or_introl Hev)) as (_ & Hr & Ht).
  split; [exact Ht|]. split; [|exact Hr].
  destruct ev as [| |target|target key|action]; cbn [step]; [congruence| | | |].
  - unfold on_cuechange. apply setActiveCue_frame.
  - destruct (heap st !! target) as [el|]; [|reflexivity].
    apply (jump_same_view e (jump_cue el) st).
  - destruct (heap st !! target) as [el|]; [|reflexivity].
    apply (on_line_keydown_same_view e (jump_cue el) key st).
  - apply (on_button_click_same_view e action st).
Qed.

Lemma step_polling (e : environment) (ev : event) (st : state) :
  (timer st = Some 150 /\ renders st = 0 /\ attempts st < 20) \/
  (timer st = None /\ renders st = 1 /\ 1 <= attempts st <= 20) ->
  (timer (step e ev st) = Some 150 /\ renders (step e ev st) = 0 /\
   attempts (step e ev st) < 20) \/
  (timer (step e ev st) = None /\ renders (step e ev st) = 1 /\
   1 <= attempts (step e ev st) <= 20).
Proof.
  intros H.
  assert (Hev : ev = TimerFired \/ ev <> TimerFired)
    by (destruct ev; (left; reflexivity) || (right; discriminate)).
  destruct Hev as [->|Hev].
  - destruct H as [(Ht & Hr & Ha) | (Ht & Hr & Ha)]; cbn [step]; rewrite Ht.
    + set (st1 := set_clock (fun t => t + 150) st).
      destruct (has_cues e) eqn:Hc; [|destruct (decide (20 <= S (attempts st)))].
      * right. rewrite tick_renders by (left; exact Hc).
        rewrite renders_renderFromCues.
        destruct (renderFromCues_frame e (clearInterval (set_attempts S st1)))
          as (_ & -> & -> & _).
        unfold renders in *. cbn. rewrite Hr. repeat split; lia.
      * right. rewrite tick_renders by (right; cbn; unfold maxAttempts; lia).
        rewrite renders_renderFromCues.
        destruct (renderFromCues_frame e (clearInterval (set_attempts S st1)))
          as (_ & -> & -> & _).
        unfold renders in *. cbn. rewrite Hr. repeat split; lia.
      * left. rewrite tick_waits by (try exact Hc; cbn; unfold maxAttempts; lia).
        unfold renders in *. cbn. rewrite Ht, Hr. repeat split; lia.
    + right. repeat split; try assumption; lia.
  - destruct (step_keeps_polling e ev st Hev) as (-> & -> & ->). exact H.
Qed.

End TimerAmongEvents.

(** X8: whatever events an installed card receives, and in whatever order
    they come between the ticks, there is never a second render pass: the
    timer is either still set to 150 ms with nothing rendered and fewer
    than 20 attempts made, or cleared with exactly one render pass made
    and at most 20 attempts. *)
Theorem never_a_second_render_pass
    (c : card) (st0 : state) (evs : list (environment * event)) :
  setupCard c = Installed st0 ->
  (timer (run evs st0) = Some 150 /\ renders (run evs st0) = 0 /\
   attempts (run evs st0) < 20)
  \/ (timer (run evs st0) = None /\ renders (run evs st0) = 1 /\
      1 <= attempts (run evs st0) <= 20).
Proof.
  intros Hs. destruct (setupCard_installed c st0 Hs) as (_&_&_&Ha&Ht&_&Hl&_).
  assert (H0 : (timer st0 = Some 150 /\ renders st0 = 0 /\ attempts st0 < 20) \/
               (timer st0 = None /\ renders st0 = 1 /\ 1 <= attempts st0 <= 20)).
  { left. unfold renders. rewrite Ht, Hl, Ha. repeat split. lia. }
  clear Hs Ha Ht Hl. revert st0 H0.
  induction evs as [|[e ev] evs IH]; intros st H0; cbn [run]; [exact H0|].
  apply IH. apply step_polling. exact H0.
Qed.

Lemma never_a_second_render_pass_witness :
  setupCard demo_card = Installed (installed demo_player demo_container) /\
  ((timer highlighted = Some 150 /\ renders highlighted = 0 /\ attempts highlighted < 20)
   \/ (timer highlighted = None /\ renders highlighted = 1 /\
       1 <= attempts highlighted <= 20)).
Proof.
  split; [reflexivity|]. unfold highlighted.
  exact (never_a_second_render_pass demo_card (installed demo_player demo_container)
           [(loaded [], TimerFired); (loaded [hello], CueChange)] eq_refl).
Defined.

(* ===================================================================== *)
(** ** Keys, buttons and the audio position                               *)
(* ===================================================================== *)

(** X9: a key other than Enter and Space on a line, and a button whose
    action is neither [jump-back] nor [jump-forward], change nothing at
    all: no seek, no play, and the key's default action is not
    prevented. *)
Theorem other_keys_and_actions_are_ignored
    (e : environment) (st : state) (target : nat) (key action : string) :
  (key <> "Enter" -> key <> " " -> step e (KeyDown target key) st = st)
  /\ (action <> "jump-back" -> action <> "jump-forward" ->
      step e (ButtonClick action) st = st).
Proof.
  split.
  - intros H1 H2. cbn [step]. destruct (heap st !! target) as [el|]; [|reflexivity].
    unfold on_line_keydown.
    apply String.eqb_neq in H1. apply String.eqb_neq in H2. rewrite H1, H2. reflexivity.
  - intros H1 H2. cbn [step]. unfold on_button_click.
    apply String.eqb_neq in H1. apply String.eqb_neq in H2. rewrite H1, H2. reflexivity.
Qed.

Lemma other_keys_and_actions_are_ignored_witness :
  "Tab" <> "Enter" /\ "Tab" <> " " /\
  step (loaded []) (KeyDown 1 "Tab") highlighted = highlighted.
Proof.
  assert (H1 : "Tab" <> "Enter") by discriminate.
  assert (H2 : "Tab" <> " ") by discriminate.
  split; [exact H1|]. split; [exact H2|].
  exact (proj1 (other_keys_and_actions_are_ignored (loaded []) highlighted 1 "Tab" "x")
           H1 H2).
Defined.

(** X10: clicks and keys on lines and clicks on buttons only reach the
    audio element: heap, container, [lines], [cueToLine], scroll offset,
    timer and attempt count are as before, so the marking is as before
    and nothing is rendered.  A seek alone never moves the highlight. *)
Theorem seeking_leaves_the_view_alone (e : environment) (ev : event) (st : state) :
  ev <> TimerFired -> ev <> CueChange ->
  same_view st (step e ev st)
  /\ active_lines (step e ev st) = active_lines st
  /\ renders (step e ev st) = renders st.
Proof.
  intros Ht Hc.
  assert (Hv : same_view st (step e ev st)).
  { destruct ev as [| |target|target key|action]; cbn [step]; [congruence|congruence| | |].
    - destruct (heap st !! target) as [el|]; [|repeat split].
      apply (jump_same_view e (jump_cue el) st).
    - destruct (heap st !! target) as [el|]; [|repeat split].
      apply (on_line_keydown_same_view e (jump_cue el) key st).
    - apply (on_button_click_same_view e action st). }
  split; [exact Hv|]. split.
  - destruct Hv as (Hh & Htr & _). apply active_lines_ext; assumption.
  - apply step_keeps_polling. exact Ht.
Qed.

Lemma seeking_leaves_the_view_alone_witness :
  Click 1 <> TimerFired /\ Click 1 <> CueChange /\
  active_lines (step (loaded []) (Click 1) highlighted) = active_lines highlighted.
Proof.
  assert (H1 : Click 1 <> TimerFired) by discriminate.
  assert (H2 : Click 1 <> CueChange) by discriminate.
  split; [exact H1|]. split; [exact H2|].
  exact (proj1 (proj2 (seeking_leaves_the_view_alone (loaded []) (Click 1) highlighted
                         H1 H2))).
Defined.

Section Position.

Local Open Scope Qc_scope.

Lemma Qc_sub_le (t x : Qc) : 0 <= x -> t - x <= t.
Proof.
  intros H. apply Qcle_minus_iff.
  replace (t + - (t - x)) with x by ring. exact H.
Qed.

Lemma Qc_le_add (t x : Qc) : 0 <= x -> t <= t + x.
Proof.
  intros H. apply Qcle_minus_iff.
  replace (t + x + - t) with x by ring. exact H.
Qed.

Lemma five_nonneg : 0 <= lit 5.
Proof. vm_compute. discriminate. Qed.

(** The two buttons as assignments. *)
Lemma jump_back_state (e : environment) (st : state) :
  step e (ButtonClick "jump-back") st =
  set_currentTime (if Qclt_le_dec 0 (fl (currentTime st - lit 5))
                   then fl (currentTime st - lit 5) else 0) st.
Proof.
  cbn [step]. unfold on_button_click, js_sub.
  change (String.eqb "jump-back" "jump-back") with true.
  change (String.eqb "jump-back" "jump-forward") with false.
  cbv iota zeta. unfold Math_max, num_lt.
  destruct (Qclt_le_dec 0 (fl (currentTime st - lit 5))); reflexivity.
Qed.

Lemma jump_forward_state (e : environment) (st : state) (d : Qc) :
  duration e = Fin d -> d <> 0 ->
  step e (ButtonClick "jump-forward") st =
  set_currentTime (if Qclt_le_dec (fl (currentTime st + lit 5)) d
                   then fl (currentTime st + lit 5) else d) st.
Proof.
  intros Hd Hnz. cbn [step]. unfold on_button_click, js_add.
  change (String.eqb "jump-forward" "jump-back") with false.
  change (String.eqb "jump-forward" "jump-forward") with true.
  cbv iota zeta. rewrite Hd. unfold or_else.
  destruct (Qc_eq_bool d 0) eqn:E; [apply Qc_eq_bool_correct in E; contradiction|].
  unfold Math_min, num_lt.
  destruct (Qclt_le_dec (fl (currentTime st + lit 5)) d); reflexivity.
Qed.

(** Rounding does not carry a difference or a sum across a double. *)
Lemma fl_sub_le (t x : Qc) : is_double t -> 0 <= x -> fl (t - x) <= t.
Proof.
  intros Hd Hx. unfold is_double in Hd.
  eapply Qcle_trans; [apply (fl_mono _ t); apply Qc_sub_le; exact Hx|].
  rewrite Hd. apply Qcle_refl.
Qed.

Lemma fl_le_add (t x : Qc) : is_double t -> 0 <= x -> t <= fl (t + x).
Proof.
  intros Hd Hx. unfold is_double in Hd.
  eapply Qcle_trans; [|apply (fl_mono t); apply Qc_le_add; exact Hx].
  rewrite Hd. apply Qcle_refl.
Qed.

End Position.

(** X11: with a duration that is a number other than zero and a position,
    a double, between 0 and the duration, each button leaves the position
    between 0 and the duration: jump-back does not go below 0 nor forward,
    and jump-forward does not go past the end nor backward; neither
    assignment is refused. *)
Theorem jumps_stay_inside_the_media (e : environment) (st : state) (d : Qc) :
  duration e = Fin d -> d <> Q2Qc 0 ->
  is_double (currentTime st) ->
  (0 <= currentTime st)%Qc -> (currentTime st <= d)%Qc ->
  (0 <= currentTime (step e (ButtonClick "jump-back") st))%Qc
  /\ (currentTime (step e (ButtonClick "jump-back") st) <= currentTime st)%Qc
  /\ (currentTime st <= currentTime (step e (ButtonClick "jump-forward") st))%Qc
  /\ (currentTime (step e (ButtonClick "jump-forward") st) <= d)%Qc
  /\ log (step e (ButtonClick "jump-back") st) = log st
  /\ log (step e (ButtonClick "jump-forward") st) = log st.
Proof.
  intros Hd Hnz Hdbl H0 H1.
  rewrite (jump_back_state e st), (jump_forward_state e st d Hd Hnz).
  cbn [currentTime log set_currentTime].
  destruct (Qclt_le_dec 0 (fl (currentTime st - lit 5))) as [Hb|Hb];
    destruct (Qclt_le_dec (fl (currentTime st + lit 5)) d) as [Hf|Hf];
    repeat split;
    first [ exact H0 | exact H1 | apply Qcle_refl
          | apply Qclt_le_weak; assumption
          | apply fl_sub_le; [exact Hdbl|apply five_nonneg]
          | apply fl_le_add; [exact Hdbl|apply five_nonneg] ].
Qed.

Lemma jumps_stay_inside_the_media_witness :
  duration twenty_long = Fin (lit 20) /\ lit 20 <> Q2Qc 0 /\
  is_double (currentTime at_ten) /\
  (0 <= currentTime at_ten)%Qc /\ (currentTime at_ten <= lit 20)%Qc /\
  (currentTime (step twenty_long (ButtonClick "jump-forward") at_ten) <= lit 20)%Qc.
Proof.
  assert (Hnz : lit 20 <> Q2Qc 0) by discriminate.
  assert (Hdbl : is_double (currentTime at_ten))
    by (apply Qc_is_canon; vm_compute; reflexivity).
  assert (H0 : (0 <= currentTime at_ten)%Qc) by (vm_compute; discriminate).
  assert (H1 : (currentTime at_ten <= lit 20)%Qc) by (vm_compute; discriminate).
  split; [reflexivity|]. split; [exact Hnz|]. split; [exact Hdbl|].
  split; [exact H0|]. split; [exact H1|].
  exact (proj1 (proj2 (proj2 (proj2
           (jumps_stay_inside_the_media twenty_long at_ten (lit 20) eq_refl Hnz Hdbl H0 H1))))).
Defined.

(** X12: the two buttons undo each other where the arithmetic on doubles
    is exact: from a position at least 5 seconds in, below [2^53] and not
    past the end, jump-back then jump-forward comes back to it; from a
    position not before the start and at least 5 seconds from the end,
    jump-forward then jump-back comes back to it when the position 5
    seconds later is a double too, as it is from 10 seconds; it does not in
    general: from 0.1 s in a resource of 20 s, jump-forward then jump-back
    ends at 0.09999999999999964 ([56294995342131 / 2^49]). *)
Theorem jump_back_and_forward_cancel (e : environment) (st : state) (d : Qc) :
  duration e = Fin d -> d <> Q2Qc 0 ->
  is_double (currentTime st) ->
  ((lit 5 <= currentTime st)%Qc -> (currentTime st <= d)%Qc ->
   (currentTime st < lit (2 ^ 53))%Qc ->
     currentTime (step e (ButtonClick "jump-forward") (step e (ButtonClick "jump-back") st))
     = currentTime st)
  /\ ((0 <= currentTime st)%Qc -> (currentTime st + lit 5 <= d)%Qc ->
      is_double (currentTime st + lit 5)%Qc ->
        currentTime (step e (ButtonClick "jump-back") (step e (ButtonClick "jump-forward") st))
        = currentTime st)
  /\ is_double (currentTime at_ten + lit 5)%Qc
  /\ is_double (currentTime at_tenth)
  /\ currentTime (step twenty_long (ButtonClick "jump-back")
                    (step twenty_long (ButtonClick "jump-forward") at_tenth))
     = Q2Qc (56294995342131 # 562949953421312)
  /\ currentTime (step twenty_long (ButtonClick "jump-back")
                    (step twenty_long (ButtonClick "jump-forward") at_tenth))
     <> currentTime at_tenth.
Proof.
  intros Hd Hnz Hdbl. split; [|split].
  - intros H5 Hle Hlt.
    rewrite (jump_forward_state e _ d Hd Hnz), (jump_back_state e st).
    cbn [currentTime set_currentTime].
    assert (E : fl (currentTime st - lit 5) = (currentTime st - lit 5)%Qc)
      by (apply (js_sub_lit_exact (currentTime st) 5 Hdbl); [lia|exact H5|exact Hlt]).
    rewrite E.
    assert (Hback : (if Qclt_le_dec (Q2Qc 0) (currentTime st - lit 5)
                     then currentTime st - lit 5 else Q2Qc 0)%Qc
                    = (currentTime st - lit 5)%Qc).
    { destruct (Qclt_le_dec (Q2Qc 0) (currentTime st - lit 5)) as [_|Hb]; [reflexivity|].
      apply Qcle_antisym; [|exact Hb].
      apply Qcle_minus_iff in H5. exact H5. }
    rewrite Hback.
    replace (currentTime st - lit 5 + lit 5)%Qc with (currentTime st) by ring.
    rewrite Hdbl.
    destruct (Qclt_le_dec (currentTime st) d) as [_|Hge]; [reflexivity|].
    apply Qcle_antisym; assumption.
  - intros H0 Hle Hsum.
    rewrite (jump_back_state e _), (jump_forward_state e st d Hd Hnz).
    cbn [currentTime set_currentTime]. rewrite Hsum.
    assert (Hfwd : (if Qclt_le_dec (currentTime st + lit 5) d
                    then currentTime st + lit 5 else d)%Qc
                   = (currentTime st + lit 5)%Qc).
    { destruct (Qclt_le_dec (currentTime st + lit 5) d) as [_|Hge]; [reflexivity|].
      apply Qcle_antisym; assumption. }
    rewrite Hfwd.
    replace (currentTime st + lit 5 - lit 5)%Qc with (currentTime st) by ring.
    rewrite Hdbl.
    destruct (Qclt_le_dec (Q2Qc 0) (currentTime st)) as [_|Hb]; [reflexivity|].
    apply Qcle_antisym; assumption.
  - split; [apply Qc_is_canon; vm_compute; reflexivity|].
    split; [apply fl_idem|].
    assert (Hv : currentTime (step twenty_long (ButtonClick "jump-back")
                                (step twenty_long (ButtonClick "jump-forward") at_tenth))
                 = Q2Qc (56294995342131 # 562949953421312))
      by (apply Qc_is_canon; vm_compute; reflexivity).
    split; [exact Hv|]. rewrite Hv.
    intros H; apply (f_equal this) in H; vm_compute in H; discriminate H.
Qed.

Lemma jump_back_and_forward_cancel_witness :
  duration twenty_long = Fin (lit 20) /\ lit 20 <> Q2Qc 0 /\
  is_double (currentTime at_ten) /\
  (lit 5 <= currentTime at_ten)%Qc /\ (currentTime at_ten <= lit 20)%Qc /\
  (currentTime at_ten < lit (2 ^ 53))%Qc /\
  currentTime (step twenty_long (ButtonClick "jump-forward")
                 (step twenty_long (ButtonClick "jump-back") at_ten))
  = currentTime at_ten.
Proof.
  assert (Hnz : lit 20 <> Q2Qc 0) by discriminate.
  assert (Hdbl : is_double (currentTime at_ten))
    by (apply Qc_is_canon; vm_compute; reflexivity).
  assert (H5 : (lit 5 <= currentTime at_ten)%Qc) by (vm_compute; discriminate).
  assert (H1 : (currentTime at_ten <= lit 20)%Qc) by (vm_compute; discriminate).
  assert (H2 : (currentTime at_ten < lit (2 ^ 53))%Qc) by (vm_compute; reflexivity).
  split; [reflexivity|]. split; [exact Hnz|]. split; [exact Hdbl|].
  split; [exact H5|]. split; [exact H1|]. split; [exact H2|].
  exact (proj1 (jump_back_and_forward_cancel twenty_long at_ten (lit 20) eq_refl Hnz Hdbl)
           H5 H1 H2).
Defined.

(* ===================================================================== *)
(** ** setupCard's early returns                                          *)
(* ===================================================================== *)

(** X13: [setupCard] does nothing at all for a card without the audio
    element or without the transcript container; with both but no text
    track it writes the warning, and only the warning, into the container
    and installs nothing; only with a text track does it hide the track,
    start the timer at 150 ms with no attempt made, and leave the
    container's content, the scroll offset and the audio element as they
    were, with no line and an empty [cueToLine]. *)
Theorem setupCard_outcomes (c : card) :
  (setupCard c = Skipped <-> audio c = None \/ transcriptEl c = None)
  /\ (forall children, setupCard c = NoTrack children ->
        children = [Html no_track_html] /\
        exists a, audio c = Some a /\ textTracks a = [] /\ transcriptEl c <> None)
  /\ (forall st, setupCard c = Installed st ->
        exists a t, audio c = Some a /\ transcriptEl c = Some t /\ textTracks a <> [] /\
          track_mode st = "hidden" /\ timer st = Some 150 /\ attempts st = 0 /\
          transcript st = Html <$> container_markup t /\
          scrollTop st = container_scrollTop t /\
          currentTime st = player_currentTime a /\ paused st = player_paused a /\
          heap st = [] /\ lines st = [] /\ cueToLine st = ∅ /\ log st = []).
Proof.
  unfold setupCard.
  destruct (audio c) as [a|], (transcriptEl c) as [t|];
    try destruct (textTracks a) as [|tr trs] eqn:Htr.
  all: split; [split; [intros H; try discriminate H; auto
                      |intros [H|H]; try discriminate H; reflexivity]|].
  all: split; [intros children H; try discriminate H
              |intros st H; try discriminate H].
  - injection H as <-. split; [reflexivity|]. exists a. repeat split; [exact Htr|discriminate].
  - injection H as <-. exists a, t. rewrite Htr. repeat split. discriminate.
Qed.


(** X14: in every reachable state, each shown line carries the label and
    the text of the very cue its listeners seek to: the time label is the
    formatted start time of that cue, the text is the cue's text, and a
    click or Enter on the line sets the position to the double nearest to
    the sum of that start time and of the double [0.01]. *)
Theorem shown_line_seeks_to_its_label
    (c : card) (st0 : state) (evs : list (environment * event))
    (e : environment) (a : nat) :
  setupCard c = Installed st0 ->
  a ∈ rendered_lines (run evs st0) ->
  exists el,
    heap (run evs st0) !! a = Some el
    /\ time_text el = formatTime (Num (Fin (startTime (jump_cue el))))
    /\ body_text el = text (jump_cue el)
    /\ currentTime (step e (Click a) (run evs st0))
       = fl (startTime (jump_cue el) + fl (dec 1 100))%Qc
    /\ currentTime (step e (KeyDown a "Enter") (run evs st0))
       = fl (startTime (jump_cue el) + fl (dec 1 100))%Qc.
Proof.
  intros Hs Hin.
  destruct (run_shows evs st0 [] 0 (shows_installed c st0 Hs))
    as (cues & base & Hr & Hl & Hel & _).
  rewrite Hr, Hl in Hin. apply elem_of_seq in Hin.
  destruct (lookup_lt_is_Some_2 cues (a - base)) as [cu Hcu]; [lia|].
  destruct (Hel _ cu Hcu) as (el & Hlook & (_ & Htime & Hbody & Hj & _)).
  replace (base + (a - base)) with a in Hlook by lia.
  exists el. split; [exact Hlook|].
  split; [rewrite Hj; exact Htime|]. split; [rewrite Hj; exact Hbody|].
  cbn [step]. rewrite Hlook. unfold on_line_click, on_line_keydown.
  change (String.eqb "Enter" "Enter" || String.eqb "Enter" " ")%bool with true.
  cbv iota. unfold jump, audio_play, js_add. destruct (play_result e); split; reflexivity.
Qed.

Lemma shown_line_seeks_to_its_label_witness :
  setupCard demo_card = Installed (installed demo_player demo_container) /\
  1 ∈ rendered_lines highlighted /\
  exists el, heap highlighted !! 1 = Some el /\
             time_text el = formatTime (Num (Fin (startTime (jump_cue el)))).
Proof.
  unfold highlighted.
  assert (Hin : 1 ∈ rendered_lines
                      (run [(loaded [], TimerFired); (loaded [hello], CueChange)]
                           (installed demo_player demo_container))).
  { apply (list_elem_of_lookup_2 _ 1 1). vm_compute. reflexivity. }
  split; [reflexivity|]. split; [exact Hin|].
  destruct (shown_line_seeks_to_its_label demo_card (installed demo_player demo_container)
              [(loaded [], TimerFired); (loaded [hello], CueChange)] idle 1 eq_refl Hin)
    as (el & Hlook & Htime & _).
  exists el. split; [exact Hlook|exact Htime].
Defined.
